(** * Lab7.c: element-wise vector addition pipelined over CUDA streams

    A shallow embedding of [src/Lab7.c].  The host program ([main]) is a
    computation in a small trace-and-exit monad: every CUDA runtime call it
    makes is recorded, its return code is drawn from an environment, and the
    [check] macro turns a failure into a process exit.  The device is a
    machine with one FIFO queue per stream whose operations execute in any
    interleaving that respects the order inside each queue.  The kernel
    [vecAdd] is a function of one thread; a launch runs it for every thread of
    the grid.

    C [int] is a 32-bit two's-complement integer: arithmetic on it is written
    with its wrap-around ([wrap_int]); [size_t] is 64-bit.  C [float] is IEEE
    binary32, taken from the Standard Library's [SpecFloat] with precision 24
    and maximal exponent 128.  The [wb*] helpers of the course library (timers,
    logging, file import) are I/O glue outside the file and are left out,
    except [wbSolution], which is the point where the output vector is handed
    over. *)

From Stdlib Require Import String.
From Stdlib Require Import ZArith List Bool Lia Permutation.
From Stdlib Require Import SpecFloat.
Import ListNotations.
Local Open Scope Z_scope.

(* ================================================================= *)
(** ** Machine integers and floats *)

Definition INT_MAX : Z := 2147483647.
Definition INT_MIN : Z := -2147483648.

(** 32-bit [int]: the value of [x] after two's-complement wrap-around. *)
Definition wrap_int (x : Z) : Z := (x + 2 ^ 31) mod 2 ^ 32 - 2 ^ 31.
(** 32-bit [unsigned int] (the components of [blockIdx], [blockDim],
    [threadIdx]) and 64-bit [size_t]. *)
Definition wrap_uint (x : Z) : Z := x mod 2 ^ 32.
Definition wrap_size (x : Z) : Z := x mod 2 ^ 64.

Definition int_add (a b : Z) : Z := wrap_int (a + b).
Definition int_sub (a b : Z) : Z := wrap_int (a - b).
Definition int_mul (a b : Z) : Z := wrap_int (a * b).
(** [/] on [int] truncates toward zero. *)
Definition int_div (a b : Z) : Z := wrap_int (Z.quot a b).

Definition in_int (x : Z) : Prop := INT_MIN <= x <= INT_MAX.

(** [float]: IEEE binary32. *)
Definition float : Type := spec_float.
Definition fadd (x y : float) : float := SFadd 24 128 x y.
Definition fzero : float := S754_zero false.
Definition sizeof_float : Z := 4.

(* ================================================================= *)
(** ** Macros and constants of the file *)

(** [#define min(a, b) (a < b ? a : b)] and
    [#define max(a, b) (a > b ? a : b)]. *)
Definition min (a b : Z) : Z := if a <? b then a else b.
Definition max (a b : Z) : Z := if a >? b then a else b.

Definition N_STREAMS : Z := 4.
Definition BLOCK_SIZE : Z := 128.
(** [const int segmentSize = 128;] (line 90). *)
Definition segmentSize : Z := 128.

Definition cudaError_t : Type := Z.
Definition cudaSuccess : cudaError_t := 0.
Definition EXIT_FAILURE : Z := 1.
Definition FILE_ : string := "Lab7.c"%string.

(* ================================================================= *)
(** ** The calls the host makes *)

(** The three arrays of device pointers of [main]; [deviceInput1] with index
    [s] stands for [deviceInput1[s]].  In every call of the file the buffer
    index and the stream index are the same variable [s], so a call carries
    one index. *)
Inductive dev_array : Type := deviceInput1 | deviceInput2 | deviceOutput.
Inductive host_ptr : Type := hostInput1 | hostInput2 | hostOutput.

Inductive call : Type :=
  (** [cudaStreamCreate(&stream[s])] *)
| cudaStreamCreate (s : Z)
  (** [cudaMalloc((void** )&a[s], size)] *)
| cudaMalloc (a : dev_array) (s : Z) (size : Z)
  (** [cudaMemcpyAsync(a[s], src + off, count, cudaMemcpyHostToDevice, stream[s])] *)
| cudaMemcpyAsync_H2D (a : dev_array) (s : Z) (src : host_ptr) (off : Z) (count : Z)
  (** [vecAdd<<<grid, block, 0, stream[s]>>>(deviceInput1[s], deviceInput2[s], deviceOutput[s], len)] *)
| vecAdd_launch (grid block : Z) (s : Z) (len : Z)
  (** [cudaMemcpyAsync(hostOutput + off, deviceOutput[s], count, cudaMemcpyDeviceToHost, stream[s])] *)
| cudaMemcpyAsync_D2H (off : Z) (s : Z) (count : Z)
  (** [wbSolution(args, hostOutput, len)] *)
| wbSolution (len : Z)
  (** [cudaFree(a[s])] *)
| cudaFree (a : dev_array) (s : Z)
  (** [free(p)] *)
| free (p : host_ptr).

(** What [check] prints: ["\nError found\n%s in %s at line %d"] with
    [cudaGetErrorString(err)], [__FILE__] and [__LINE__]. *)
Record diagnostic : Type := Diagnostic {
  diag_error : cudaError_t;   (* the code whose cudaGetErrorString is printed *)
  diag_file : string;
  diag_line : Z
}.

(* ================================================================= *)
(** ** The host monad: a trace of calls, return codes from the environment,
       and process exit *)

Inductive result (A : Type) : Type :=
| Returned (a : A) (tr : list call)
| Exited (status : Z) (stdout : list diagnostic) (tr : list call)
| OutOfFuel (tr : list call).
Arguments Returned {A} a tr.
Arguments Exited {A} status stdout tr.
Arguments OutOfFuel {A} tr.

(** The environment answers the [k]-th call of a run (counting from 0) with a
    return code. *)
Definition environment : Type := nat -> cudaError_t.

Definition M (A : Type) : Type := environment -> list call -> result A.

Definition ret {A} (a : A) : M A := fun _ tr => Returned a tr.

Definition bind {A B} (m : M A) (f : A -> M B) : M B :=
  fun env tr =>
    match m env tr with
    | Returned a tr' => f a env tr'
    | Exited st out tr' => Exited st out tr'
    | OutOfFuel tr' => OutOfFuel tr'
    end.

Notation "x <- m ;; k" := (bind m (fun x => k))
  (at level 61, m at next level, right associativity).
Notation "m ;; k" := (bind m (fun _ => k))
  (at level 61, right associativity).

(** A runtime call that returns a [cudaError_t]. *)
Definition api (c : call) : M cudaError_t :=
  fun env tr => Returned (env (length tr)) (tr ++ [c]).

(** A call whose result the program does not receive: a kernel launch
    (its status stays inside the runtime) and the host-side helpers. *)
Definition invoke (c : call) : M unit :=
  fun _ tr => Returned tt (tr ++ [c]).

(** [exit(status)] after the text printed so far. *)
Definition exit_ (status : Z) (out : list diagnostic) : M unit :=
  fun _ tr => Exited status out tr.

(** The [check] macro (lines 8-15), expanded at source line [line]. *)
Definition check (err : cudaError_t) (line : Z) : M unit :=
  if negb (err =? cudaSuccess)
  then exit_ EXIT_FAILURE [Diagnostic err FILE_ line]
  else ret tt.

(** [for (int s = 0; s < N_STREAMS; ++s) body], as [n] iterations from [s]. *)
Fixpoint for_ (n : nat) (s : Z) (body : Z -> M unit) : M unit :=
  match n with
  | O => ret tt
  | S n' => body s ;; for_ n' (int_add s 1) body
  end.

Definition for_streams (body : Z -> M unit) : M unit :=
  for_ (Z.to_nat N_STREAMS) 0 body.

(* ================================================================= *)
(** ** [main] *)

(** Lines 82-85. *)
Definition create_streams : M unit :=
  for_streams (fun s =>
    err <- api (cudaStreamCreate s) ;; check err 84).

(** Lines 91-96; [segmentSize*sizeof(float)] is computed in [size_t]. *)
Definition allocate_buffers : M unit :=
  for_streams (fun s =>
    err <- api (cudaMalloc deviceInput1 s (wrap_size (segmentSize * sizeof_float))) ;;
    check err 93 ;;
    err <- api (cudaMalloc deviceInput2 s (wrap_size (segmentSize * sizeof_float))) ;;
    check err 94 ;;
    err <- api (cudaMalloc deviceOutput s (wrap_size (segmentSize * sizeof_float))) ;;
    check err 95).

(** Lines 105-119: the copy-in loop of one chunk. *)
Definition copy_in (inputLength i : Z) : M unit :=
  for_streams (fun s =>
    let copySize :=
      max (min segmentSize (int_sub (int_sub inputLength i) (int_mul s segmentSize))) 0 in
    err <- api (cudaMemcpyAsync_H2D deviceInput1 s hostInput1
                  (i + int_mul s segmentSize)
                  (wrap_size (copySize * sizeof_float))) ;;
    check err 113 ;;
    err <- api (cudaMemcpyAsync_H2D deviceInput2 s hostInput2
                  (i + int_mul s segmentSize)
                  (wrap_size (copySize * sizeof_float))) ;;
    check err 118).

(** Lines 121-129: the launch loop of one chunk.  The launch is not followed
    by [check]. *)
Definition compute (inputLength i : Z) : M unit :=
  for_streams (fun s =>
    let copySize :=
      max (min segmentSize (int_sub (int_sub inputLength i) (int_mul s segmentSize))) 0 in
    let d := int_add (int_div (int_sub segmentSize 1) BLOCK_SIZE) 1 in
    invoke (vecAdd_launch d BLOCK_SIZE s copySize)).

(** Lines 131-139: the copy-out loop of one chunk. *)
Definition copy_out (inputLength i : Z) : M unit :=
  for_streams (fun s =>
    let copySize :=
      max (min segmentSize (int_sub (int_sub inputLength i) (int_mul s segmentSize))) 0 in
    err <- api (cudaMemcpyAsync_D2H
                  (i + int_mul s segmentSize) s
                  (wrap_size (copySize * sizeof_float))) ;;
    check err 138).

(** The body of the outer loop (lines 102-140). *)
Definition chunk (inputLength i : Z) : M unit :=
  copy_in inputLength i ;; compute inputLength i ;; copy_out inputLength i.

(** Lines 101-140:
    [for (int i = 0; i < inputLength; i += segmentSize*N_STREAMS)].
    The loop is not structurally recursive ([i] may wrap), so it takes
    fuel: one unit per iteration. *)
Fixpoint scheduler (fuel : nat) (inputLength i : Z) : M unit :=
  if i <? inputLength then
    match fuel with
    | O => fun _ tr => OutOfFuel tr
    | S fuel' =>
        chunk inputLength i ;;
        scheduler fuel' inputLength (int_add i (int_mul segmentSize N_STREAMS))
    end
  else ret tt.

(** Lines 150-155. *)
Definition free_buffers : M unit :=
  for_streams (fun s =>
    err <- api (cudaFree deviceInput1 s) ;; check err 152 ;;
    err <- api (cudaFree deviceInput2 s) ;; check err 153 ;;
    err <- api (cudaFree deviceOutput s) ;; check err 154).

(** [main] from line 82 on; [inputLength] is what [wbImport] stored. *)
Definition main (fuel : nat) (inputLength : Z) : M Z :=
  create_streams ;;
  allocate_buffers ;;
  scheduler fuel inputLength 0 ;;
  invoke (wbSolution inputLength) ;;
  free_buffers ;;
  invoke (free hostInput1) ;;
  invoke (free hostInput2) ;;
  invoke (free hostOutput) ;;
  ret 0.

(** A run of the whole program against an environment. *)
Definition run_main (fuel : nat) (env : environment) (inputLength : Z) : result Z :=
  main fuel inputLength env [].

(** The environment in which every call succeeds. *)
Definition all_succeed : environment := fun _ => cudaSuccess.

(** The segment length of stream [s] in the chunk that starts at [i]: the
    expression of lines 107, 123 and 133. *)
Definition copySize (inputLength i s : Z) : Z :=
  max (min segmentSize (int_sub (int_sub inputLength i) (int_mul s segmentSize))) 0.

(* ================================================================= *)
(** ** Device memory, the kernel, and what one operation does *)

(** The three buffers of one stream. *)
Record triple : Type := Triple {
  dIn1 : list float;
  dIn2 : list float;
  dOut : list float
}.

Definition get_buf (a : dev_array) (t : triple) : list float :=
  match a with
  | deviceInput1 => dIn1 t
  | deviceInput2 => dIn2 t
  | deviceOutput => dOut t
  end.

Definition set_buf (a : dev_array) (v : list float) (t : triple) : triple :=
  match a with
  | deviceInput1 => Triple v (dIn2 t) (dOut t)
  | deviceInput2 => Triple (dIn1 t) v (dOut t)
  | deviceOutput => Triple (dIn1 t) (dIn2 t) v
  end.

Definition zlength (l : list float) : Z := Z.of_nat (length l).

(** An element read or written through a pointer: [None] is an access
    outside the block. *)
Definition load (l : list float) (i : Z) : option float :=
  if 0 <=? i then nth_error l (Z.to_nat i) else None.

(** The list [l] with [v] at position [i]. *)
Definition poke (l : list float) (i : nat) (v : float) : list float :=
  firstn i l ++ v :: skipn (S i) l.

Definition store (l : list float) (i : Z) (v : float) : option (list float) :=
  if (0 <=? i) && (i <? zlength l)
  then Some (poke l (Z.to_nat i) v)
  else None.

(** The element at index [idx], for statements about the contents of a
    vector. *)
Definition get (l : list float) (idx : Z) : float := nth (Z.to_nat idx) l fzero.

(** The kernel (lines 44-49), for the thread [threadIdx_x] of block
    [blockIdx_x]: the new contents of [out], or [None] on an access outside
    a buffer.  The index is computed in [unsigned int] and converted to
    [int]. *)
Definition vecAdd (in1 in2 out : list float) (len : Z)
    (blockIdx_x blockDim_x threadIdx_x : Z) : option (list float) :=
  let i := wrap_int (wrap_uint (wrap_uint (blockIdx_x * blockDim_x) + threadIdx_x)) in
  if i <? len then
    match load in1 i, load in2 i with
    | Some a, Some b => store out i (fadd a b)
    | _, _ => None
    end
  else Some out.

Definition zrange (n : Z) : list Z := map Z.of_nat (seq 0 (Z.to_nat n)).

(** The threads of a launch [<<<grid, block>>>], as (block, thread) pairs. *)
Definition grid_threads (grid block : Z) : list (Z * Z) :=
  flat_map (fun b => map (fun t => (b, t)) (zrange block)) (zrange grid).

(** The threads of a launch executed one after the other in the order
    [order]. *)
Fixpoint run_threads (order : list (Z * Z)) (blockDim_x : Z)
    (in1 in2 : list float) (len : Z) (out : list float) : option (list float) :=
  match order with
  | [] => Some out
  | (b, t) :: rest =>
      match vecAdd in1 in2 out len b blockDim_x t with
      | Some out' => run_threads rest blockDim_x in1 in2 len out'
      | None => None
      end
  end.

Definition launch (grid block : Z) (in1 in2 out : list float) (len : Z)
    : option (list float) :=
  run_threads (grid_threads grid block) block in1 in2 len out.

(** [n] elements copied from [src + so] to [dst + d0]; nothing is touched
    when [n] is 0. *)
Definition copy_floats (src : list float) (so : Z) (dst : list float) (d0 : Z) (n : Z)
    : option (list float) :=
  if n <=? 0 then Some dst
  else if (0 <=? so) && (so + n <=? zlength src) && (0 <=? d0) && (d0 + n <=? zlength dst)
  then Some (firstn (Z.to_nat d0) dst
             ++ firstn (Z.to_nat n) (skipn (Z.to_nat so) src)
             ++ skipn (Z.to_nat (d0 + n)) dst)
  else None.

(** A block of [n] floats of unspecified contents ([junk] is what happens to
    be in memory). *)
Definition fresh_block (n : Z) (junk : list float) : list float :=
  firstn (Z.to_nat n) junk ++ repeat fzero (Z.to_nat n - length junk).

Definition upd {A : Type} (f : Z -> A) (s : Z) (v : A) : Z -> A :=
  fun x => if x =? s then v else f x.

(** The stream an asynchronous call is bound to. *)
Definition stream_of (c : call) : option Z :=
  match c with
  | cudaMemcpyAsync_H2D _ s _ _ _ => Some s
  | vecAdd_launch _ _ s _ => Some s
  | cudaMemcpyAsync_D2H _ s _ => Some s
  | _ => None
  end.

Record machine : Type := Machine {
  pending : list call;          (* calls the host has not made yet *)
  queue : Z -> list call;       (* per stream: issued, not yet executed *)
  dmem : Z -> triple;           (* per stream: its three buffers *)
  out_vec : list float;         (* the block hostOutput points to *)
  handed : option (list float); (* what wbSolution received *)
  faulted : bool                (* an operation accessed memory out of bounds *)
}.

Inductive choice : Type := Host | Device (s : Z).

Section Device.

(** The two imported vectors, and what memory holds before it is
    written: per device buffer, and for the block of [hostOutput]. *)
Variables in1 in2 : list float.
Variable junk : dev_array -> Z -> list float.
Variable junk_out : list float.

Definition host_block (p : host_ptr) (out : list float) : list float :=
  match p with
  | hostInput1 => in1
  | hostInput2 => in2
  | hostOutput => out
  end.

(** One asynchronous operation of stream [s], on the buffers [t] of that
    stream and the output block [out].  [count] is in bytes. *)
Definition execute (c : call) (t : triple) (out : list float)
    : option (triple * list float) :=
  match c with
  | cudaMemcpyAsync_H2D a _ src off count =>
      match copy_floats (host_block src out) off (get_buf a t) 0 (count / sizeof_float) with
      | Some b => Some (set_buf a b t, out)
      | None => None
      end
  | vecAdd_launch grid block _ len =>
      match launch grid block (dIn1 t) (dIn2 t) (dOut t) len with
      | Some o => Some (set_buf deviceOutput o t, out)
      | None => None
      end
  | cudaMemcpyAsync_D2H off _ count =>
      match copy_floats (dOut t) 0 out off (count / sizeof_float) with
      | Some o => Some (t, o)
      | None => None
      end
  | _ => Some (t, out)
  end.

(** The host makes its next call.  Allocation and the hand-over to
    [wbSolution] take effect at once; an asynchronous call is appended to
    the queue of its stream.  [cudaFree] and [free] leave the data in
    place: the release itself is followed in the [ledger] below. *)
Definition issue (c : call) (m : machine) : machine :=
  match c with
  | cudaMalloc a s size =>
      Machine (pending m) (queue m)
              (upd (dmem m) s (set_buf a (fresh_block (size / sizeof_float) (junk a s)) (dmem m s)))
              (out_vec m) (handed m) (faulted m)
  | cudaMemcpyAsync_H2D _ s _ _ _
  | vecAdd_launch _ _ s _
  | cudaMemcpyAsync_D2H _ s _ =>
      Machine (pending m) (upd (queue m) s (queue m s ++ [c]))
              (dmem m) (out_vec m) (handed m) (faulted m)
  | wbSolution len =>
      Machine (pending m) (queue m) (dmem m) (out_vec m)
              (Some (firstn (Z.to_nat len) (out_vec m))) (faulted m)
  | cudaStreamCreate _ | cudaFree _ _ | free _ => m
  end.

(** One step: the host makes a call, or the device executes the oldest
    operation of one stream.  A step with nothing to do leaves the
    machine as it is. *)
Definition step (ch : choice) (m : machine) : machine :=
  match ch with
  | Host =>
      match pending m with
      | [] => m
      | c :: rest =>
          issue c (Machine rest (queue m) (dmem m) (out_vec m) (handed m) (faulted m))
      end
  | Device s =>
      match queue m s with
      | [] => m
      | c :: q =>
          match execute c (dmem m s) (out_vec m) with
          | Some (t, o) =>
              Machine (pending m) (upd (queue m) s q) (upd (dmem m) s t) o
                      (handed m) (faulted m)
          | None =>
              Machine (pending m) (upd (queue m) s q) (dmem m) (out_vec m)
                      (handed m) true
          end
      end
  end.

Definition run (sched : list choice) (m : machine) : machine :=
  fold_left (fun m ch => step ch m) sched m.

(** The machine at the first call of [main]: nothing allocated on the
    device, [hostOutput] a block of [inputLength] floats (line 74). *)
Definition boot (tr : list call) (inputLength : Z) : machine :=
  Machine tr (fun _ => []) (fun _ => Triple [] [] [])
          (fresh_block inputLength junk_out) None false.

(** The host makes its remaining calls and every queue is run dry. *)
Definition settle (m : machine) : machine :=
  let m1 := run (repeat Host (length (pending m))) m in
  fold_left (fun m s => run (repeat (Device s) (length (queue m s))) m)
            (zrange N_STREAMS) m1.

End Device.

Definition completed (m : machine) : Prop :=
  pending m = [] /\ forall s, queue m s = [].

(* ================================================================= *)
(** ** The program as a list of calls *)

(** The source line of the [check] that follows a call, if one does. *)
Definition check_line (c : call) : option Z :=
  match c with
  | cudaStreamCreate _ => Some 84
  | cudaMalloc deviceInput1 _ _ => Some 93
  | cudaMalloc deviceInput2 _ _ => Some 94
  | cudaMalloc deviceOutput _ _ => Some 95
  | cudaMemcpyAsync_H2D _ _ hostInput1 _ _ => Some 113
  | cudaMemcpyAsync_H2D _ _ _ _ _ => Some 118
  | cudaMemcpyAsync_D2H _ _ _ => Some 138
  | cudaFree deviceInput1 _ => Some 152
  | cudaFree deviceInput2 _ => Some 153
  | cudaFree deviceOutput _ => Some 154
  | vecAdd_launch _ _ _ _ | wbSolution _ | free _ => None
  end.

(** Making the calls of a list one after the other, each followed by its
    [check] when it has one. *)
Fixpoint perform (l : list call) : M unit :=
  match l with
  | [] => ret tt
  | c :: l' =>
      match check_line c with
      | Some line => err <- api c ;; check err line
      | None => invoke c
      end ;;
      perform l'
  end.

Definition create_calls : list call :=
  map cudaStreamCreate (zrange N_STREAMS).

Definition allocate_calls : list call :=
  flat_map (fun s =>
    [cudaMalloc deviceInput1 s (wrap_size (segmentSize * sizeof_float));
     cudaMalloc deviceInput2 s (wrap_size (segmentSize * sizeof_float));
     cudaMalloc deviceOutput s (wrap_size (segmentSize * sizeof_float))])
    (zrange N_STREAMS).

Definition copy_in_calls (inputLength i : Z) : list call :=
  flat_map (fun s =>
    [cudaMemcpyAsync_H2D deviceInput1 s hostInput1 (i + int_mul s segmentSize)
       (wrap_size (copySize inputLength i s * sizeof_float));
     cudaMemcpyAsync_H2D deviceInput2 s hostInput2 (i + int_mul s segmentSize)
       (wrap_size (copySize inputLength i s * sizeof_float))])
    (zrange N_STREAMS).

Definition compute_calls (inputLength i : Z) : list call :=
  map (fun s =>
    vecAdd_launch (int_add (int_div (int_sub segmentSize 1) BLOCK_SIZE) 1) BLOCK_SIZE
                  s (copySize inputLength i s))
    (zrange N_STREAMS).

Definition copy_out_calls (inputLength i : Z) : list call :=
  map (fun s =>
    cudaMemcpyAsync_D2H (i + int_mul s segmentSize) s
      (wrap_size (copySize inputLength i s * sizeof_float)))
    (zrange N_STREAMS).

Definition chunk_calls (inputLength i : Z) : list call :=
  copy_in_calls inputLength i ++ compute_calls inputLength i
  ++ copy_out_calls inputLength i.

Definition free_calls : list call :=
  flat_map (fun s =>
    [cudaFree deviceInput1 s; cudaFree deviceInput2 s; cudaFree deviceOutput s])
    (zrange N_STREAMS).

(** The calls of the outer loop started at [i] with [fuel] iterations at
    hand, and whether the loop condition became false. *)
Fixpoint sweep (fuel : nat) (inputLength i : Z) : list call * bool :=
  if i <? inputLength then
    match fuel with
    | O => ([], false)
    | S fuel' =>
        let r := sweep fuel' inputLength (int_add i (int_mul segmentSize N_STREAMS)) in
        (chunk_calls inputLength i ++ fst r, snd r)
    end
  else ([], true).

Definition epilogue_calls (inputLength : Z) : list call :=
  [wbSolution inputLength] ++ free_calls
  ++ [free hostInput1; free hostInput2; free hostOutput].

Definition program (fuel : nat) (inputLength : Z) : list call :=
  create_calls ++ allocate_calls ++ fst (sweep fuel inputLength 0)
  ++ epilogue_calls inputLength.

(** Leaving the loop: the condition is false, or the fuel is spent while it
    still holds. *)
Definition stop_unless (b : bool) : M unit :=
  if b then ret tt else fun _ tr => OutOfFuel tr.

(* ================================================================= *)
(** ** One stream in isolation *)

Section Isolated.

Variables in1 in2 : list float.
Variable junk : dev_array -> Z -> list float.

(** What a call of the program does to the buffers of stream [s] and to
    the output block when the calls that concern [s] are executed in
    program order, each one completing before the next: allocations of
    its buffers and the operations bound to it; every other call is
    skipped.  [None] after an out-of-bounds access. *)
Definition lstep (s : Z) (st : option (triple * list float)) (c : call)
    : option (triple * list float) :=
  match st with
  | None => None
  | Some (t, out) =>
      match c with
      | cudaMalloc a s' size =>
          if s' =? s
          then Some (set_buf a (fresh_block (size / sizeof_float) (junk a s')) t, out)
          else st
      | _ =>
          match stream_of c with
          | Some s' => if s' =? s then execute in1 in2 c t out else st
          | None => st
          end
      end
  end.

Definition lrun (s : Z) (l : list call) (st : option (triple * list float))
    : option (triple * list float) :=
  fold_left (lstep s) l st.

End Isolated.

(** The calls that matter to stream [s] in isolation. *)
Definition concerns (s : Z) (c : call) : bool :=
  match c with
  | cudaMalloc _ s' _ => s' =? s
  | _ => match stream_of c with Some s' => s' =? s | None => false end
  end.

(** The stream whose copy-out covers index [idx] of the output vector. *)
Definition owner (idx : Z) : Z := (idx / segmentSize) mod N_STREAMS.

Definition is_malloc (c : call) : bool :=
  match c with cudaMalloc _ _ _ => true | _ => false end.

Definition is_free (c : call) : bool :=
  match c with cudaFree _ _ => true | _ => false end.

Definition is_async (c : call) : bool :=
  match stream_of c with Some _ => true | None => false end.

(** A call list in which an asynchronous call uses one of the [N_STREAMS]
    streams, copies in from an input vector, and copies out only to indices
    of its own stream. *)
Definition placed (c : call) : Prop :=
  match c with
  | cudaMemcpyAsync_H2D _ s src _ _ => 0 <= s < N_STREAMS /\ src <> hostOutput
  | vecAdd_launch _ _ s _ => 0 <= s < N_STREAMS
  | cudaMemcpyAsync_D2H off s count =>
      0 <= s < N_STREAMS /\
      forall idx, off <= idx < off + count / sizeof_float -> owner idx = s
  | _ => True
  end.

(** Every allocation precedes every asynchronous call. *)
Fixpoint allocs_first (l : list call) : Prop :=
  match l with
  | [] => True
  | c :: l' =>
      (is_async c = true -> Forall (fun c' => is_malloc c' = false) l')
      /\ allocs_first l'
  end.

(* ================================================================= *)
(** ** Resource accounting over a trace *)

Record ledger : Type := Ledger {
  live_streams : list Z;                  (* created, not released *)
  live_buffers : list (dev_array * Z);    (* allocated, not released *)
  allocated : nat;                        (* cudaMalloc calls *)
  released : nat;                         (* cudaFree calls *)
  misused : bool                          (* a buffer released while not live *)
}.

Definition dev_array_eqb (a b : dev_array) : bool :=
  match a, b with
  | deviceInput1, deviceInput1 | deviceInput2, deviceInput2
  | deviceOutput, deviceOutput => true
  | _, _ => false
  end.

Definition buf_eqb (x y : dev_array * Z) : bool :=
  dev_array_eqb (fst x) (fst y) && (snd x =? snd y).

Definition account (l : ledger) (c : call) : ledger :=
  match c with
  | cudaStreamCreate s =>
      Ledger (s :: live_streams l) (live_buffers l) (allocated l) (released l) (misused l)
  | cudaMalloc a s _ =>
      Ledger (live_streams l) ((a, s) :: live_buffers l) (S (allocated l))
             (released l) (misused l)
  | cudaFree a s =>
      Ledger (live_streams l)
             (filter (fun b => negb (buf_eqb (a, s) b)) (live_buffers l))
             (allocated l) (S (released l))
             (misused l || negb (existsb (buf_eqb (a, s)) (live_buffers l)))
  | _ => l
  end.

Definition audit (tr : list call) : ledger :=
  fold_left account tr (Ledger [] [] 0 0 false).

(* ================================================================= *)
(** ** Segment lengths read off a trace *)

Definition launch_len (c : call) : Z :=
  match c with vecAdd_launch _ _ _ len => len | _ => 0 end.

Definition copy_out_len (c : call) : Z :=
  match c with cudaMemcpyAsync_D2H _ _ count => count / sizeof_float | _ => 0 end.

Definition copy_in_len (p : host_ptr) (c : call) : Z :=
  match c, p with
  | cudaMemcpyAsync_H2D _ _ hostInput1 _ count, hostInput1 => count / sizeof_float
  | cudaMemcpyAsync_H2D _ _ hostInput2 _ count, hostInput2 => count / sizeof_float
  | _, _ => 0
  end.

Definition total (f : call -> Z) (tr : list call) : Z :=
  fold_right (fun c acc => f c + acc) 0 tr.

(** A call that moves or computes nothing. *)
Definition zero_length (c : call) : bool :=
  match c with
  | cudaMemcpyAsync_H2D _ _ _ _ count => count =? 0
  | vecAdd_launch _ _ _ len => len =? 0
  | cudaMemcpyAsync_D2H _ _ count => count =? 0
  | _ => false
  end.

(** The calls of a list bound to stream [s]. *)
Definition on_stream (s : Z) (c : call) : bool :=
  match stream_of c with Some s' => s' =? s | None => false end.

(** The number of chunks of an input of [inputLength] elements. *)
Definition chunks (inputLength : Z) : nat :=
  Z.to_nat ((inputLength + 511) / 512).

(** The calls made in a run, however it ended. *)
Definition trace_of {A} (r : result A) : list call :=
  match r with
  | Returned _ tr => tr
  | Exited _ _ tr => tr
  | OutOfFuel tr => tr
  end.

(** The calls [main] sets out to make: the whole program when the loop
    ends within the fuel, and otherwise the calls up to the point where
    the fuel is spent. *)
Definition attempted (fuel : nat) (inputLength : Z) : list call :=
  if snd (sweep fuel inputLength 0)
  then program fuel inputLength
  else create_calls ++ allocate_calls ++ fst (sweep fuel inputLength 0).

(** How [main] ends after its calls have been made. *)
Definition conclude (fuel : nat) (inputLength : Z) (r : result unit) : result Z :=
  match r with
  | Returned _ tr =>
      if snd (sweep fuel inputLength 0) then Returned 0 tr else OutOfFuel tr
  | Exited st out tr => Exited st out tr
  | OutOfFuel tr => OutOfFuel tr
  end.

(** Whether some thread of [order] has global index [j], and the threads
    whose index computation stays within [int]. *)
Definition covers (order : list (Z * Z)) (bd j : Z) : bool :=
  existsb (fun bt => fst bt * bd + snd bt =? j) order.

Definition thread_ok (bd : Z) (bt : Z * Z) : Prop :=
  0 <= fst bt * bd /\ 0 <= snd bt /\ fst bt * bd + snd bt <= INT_MAX.

(* ================================================================= *)
(** ** The machine against its streams in isolation *)

(** Two output blocks that look the same from stream [s]. *)
Definition agree (s : Z) (lout out : list float) : Prop :=
  length lout = length out /\
  forall idx, 0 <= idx -> owner idx = s -> get lout idx = get out idx.

Section Simulation.

Variables in1 in2 : list float.
Variable junk : dev_array -> Z -> list float.
(** What each stream ends with when taken in isolation. *)
Variable final : Z -> option (triple * list float).

(** The invariant of the machine: for every stream, what is queued and
    what the host has still to issue leads, in isolation, from the
    present buffers of the stream to its final state. *)
Record sim (m : machine) : Prop := Sim {
  sim_fault : faulted m = false;
  sim_pending : Forall placed (pending m);
  sim_queued : forall s, Forall placed (queue m s);
  sim_bound : forall s, Forall (fun c => stream_of c = Some s) (queue m s);
  sim_allocs : allocs_first (pending m);
  sim_idle : Exists (fun c => is_malloc c = true) (pending m) ->
             forall s, queue m s = [];
  sim_local : forall s, 0 <= s < N_STREAMS -> exists lout,
      agree s lout (out_vec m) /\
      lrun in1 in2 junk s (queue m s ++ pending m) (Some (dmem m s, lout))
      = final s
}.

End Simulation.

(* ================================================================= *)
(** ** What the pipeline is to establish *)

(** Index [idx] of [out] holds the sum of the two inputs at [idx]. *)
Definition summed (in1 in2 out : list float) (idx : Z) : Prop :=
  get out idx = fadd (get in1 idx) (get in2 idx).

(** Stream [s] in isolation, after the chunks below index [bound]: its
    buffers have their allocated size and the output block holds the sums
    at the indices of [s] below [bound]. *)
Definition stream_ok (in1 in2 : list float) (inputLength s bound : Z)
    (st : option (triple * list float)) : Prop :=
  exists t out,
    st = Some (t, out) /\
    zlength (dIn1 t) = segmentSize /\
    zlength (dIn2 t) = segmentSize /\
    zlength (dOut t) = segmentSize /\
    zlength out = inputLength /\
    forall idx, 0 <= idx < bound -> idx < inputLength -> owner idx = s ->
                summed in1 in2 out idx.

(** A copy whose length is the clamp of what is left of the input at its
    offset: [clamp(segmentSize, 0, inputLength - offset)]. *)
Definition clamped (inputLength : Z) (c : call) : Prop :=
  match c with
  | cudaMemcpyAsync_H2D _ _ _ off count
  | cudaMemcpyAsync_D2H off _ count =>
      count / sizeof_float = Z.max (Z.min segmentSize (inputLength - off)) 0
  | _ => True
  end.

(** A call of no length is executed, and as a no-op: it faults on no
    machine state and changes nothing. *)
Definition noop_when_empty (c : call) : Prop :=
  zero_length c = true ->
  forall in1 in2 t out, execute in1 in2 c t out = Some (t, out).

(** An environment in which only the call number [k] fails, with code
    [err]. *)
Definition fails_at (k : nat) (err : cudaError_t) : environment :=
  fun n => if Nat.eqb n k then err else cudaSuccess.

(** [cudaErrorInvalidConfiguration], the code of a launch that the runtime
    refuses. *)
Definition cudaErrorInvalidConfiguration : cudaError_t := 9.


(** Sample data: the binary32 values 1, 2 and 3, and memory that holds
    nothing before it is written. *)
Definition one : float := S754_finite false 8388608 (-23).
Definition two : float := S754_finite false 8388608 (-22).
Definition three : float := S754_finite false 12582912 (-22).
Definition no_junk : dev_array -> Z -> list float := fun _ _ => [].

(* ================================================================= *)
(** ** Further notions for properties of whole runs *)

(** [cudaErrorMemoryAllocation]. *)
Definition cudaErrorMemoryAllocation : cudaError_t := 2.

(** The size in bytes of every device buffer (lines 93-95). *)
Definition buffer_bytes : Z := wrap_size (segmentSize * sizeof_float).

(** A call that stays within the device buffers: a copy moves at most the
    bytes of one buffer, and a launch is given a length that its grid
    covers and that fits the buffers. *)
Definition within_buffers (c : call) : Prop :=
  match c with
  | cudaMemcpyAsync_H2D _ _ _ _ count
  | cudaMemcpyAsync_D2H _ _ count => 0 <= count <= buffer_bytes
  | vecAdd_launch grid block _ len =>
      0 <= len <= grid * block /\ grid * block = segmentSize
  | _ => True
  end.

(** A copy that stays within the host vectors of [inputLength] elements:
    it moves nothing, or its range lies in [0, inputLength). *)
Definition within_host (inputLength : Z) (c : call) : Prop :=
  match c with
  | cudaMemcpyAsync_H2D _ _ _ off count
  | cudaMemcpyAsync_D2H off _ count =>
      count = 0 \/ (0 <= off /\ off + count / sizeof_float <= inputLength)
  | _ => True
  end.

(** A call of a full segment. *)
Definition full_segment (c : call) : Prop :=
  match c with
  | cudaMemcpyAsync_H2D _ _ _ _ count
  | cudaMemcpyAsync_D2H _ _ count => count = buffer_bytes
  | vecAdd_launch _ _ _ len => len = segmentSize
  | _ => True
  end.

(** The calls the ledger follows. *)
Definition is_resource (c : call) : bool :=
  match c with
  | cudaStreamCreate _ | cudaMalloc _ _ _ | cudaFree _ _ => true
  | _ => false
  end.

Definition resource_calls : list call :=
  create_calls ++ allocate_calls ++ free_calls.

(** A ledger with nothing wrong in it: no release of a buffer that was not
    live, never more releases than allocations nor more than [3*N_STREAMS]
    allocations, the live buffers being the allocated ones not yet
    released, and no release before the last allocation. *)
Definition sound_ledger (l : ledger) : Prop :=
  misused l = false /\
  (released l <= allocated l)%nat /\
  (allocated l <= Z.to_nat (3 * N_STREAMS))%nat /\
  length (live_buffers l) = (allocated l - released l)%nat /\
  NoDup (live_buffers l) /\
  ((0 < released l)%nat -> allocated l = Z.to_nat (3 * N_STREAMS)).

(** The index of the last call made in a run. *)
Definition last_index (tr : list call) : nat := pred (length tr).



Definition is_copy_out (c : call) : bool :=
  match c with cudaMemcpyAsync_D2H _ _ _ => true | _ => false end.


(** The offset in [hostOutput] at which a copy-out writes. *)
Definition copy_out_offset (c : call) : Z :=
  match c with cudaMemcpyAsync_D2H off _ _ => off | _ => 0 end.

(** The offsets of the copies out of a trace, in the order of issue. *)
Definition copy_out_offsets (tr : list call) : list Z :=
  map copy_out_offset (filter is_copy_out tr).

(* ================================================================= *)
(** ** The host monad and the list of calls *)

Lemma bind_assoc {A B C} (m : M A) (f : A -> M B) (g : B -> M C) env tr :
  bind (bind m f) g env tr = bind m (fun a => bind (f a) g) env tr.
Proof.
  unfold bind. destruct (m env tr); reflexivity.
Qed.

Lemma bind_ext {A B} (m m' : M A) (f f' : A -> M B) env tr :
  (forall env tr, m env tr = m' env tr) ->
  (forall a env tr, f a env tr = f' a env tr) ->
  bind m f env tr = bind m' f' env tr.
Proof.
  intros Hm Hf. unfold bind. rewrite Hm. destruct (m' env tr); auto.
Qed.

Lemma perform_app l1 l2 env tr :
  perform (l1 ++ l2) env tr = (perform l1 ;; perform l2) env tr.
Proof.
  revert env tr. induction l1 as [|c l1 IH]; intros env tr.
  - reflexivity.
  - cbn [perform app]. rewrite bind_assoc.
    apply bind_ext; auto.
Qed.

Ltac split_env :=
  repeat match goal with
         | |- context [negb (?e =? cudaSuccess)] =>
             destruct (negb (e =? cudaSuccess)); cbv beta iota; try reflexivity
         end.

Lemma create_streams_perform env tr :
  create_streams env tr = perform create_calls env tr.
Proof.
  cbv [create_streams create_calls for_streams for_ perform check_line bind api
       check ret exit_ invoke zrange map seq].
  change (Z.to_nat N_STREAMS) with 4%nat. cbv iota beta.
  change (int_add 0 1) with 1.
  change (int_add 1 1) with 2.
  change (int_add 2 1) with 3.
  cbv [seq map Z.of_nat Pos.of_succ_nat Pos.succ].
  split_env.
Qed.

Ltac unroll_streams :=
  cbv [for_streams for_ perform check_line bind api check ret exit_ invoke
       zrange map flat_map app];
  change (Z.to_nat N_STREAMS) with 4%nat; cbv iota beta;
  change (int_add 0 1) with 1;
  change (int_add 1 1) with 2;
  change (int_add 2 1) with 3;
  cbv [seq map flat_map app Z.of_nat Pos.of_succ_nat Pos.succ];
  split_env.

Lemma allocate_buffers_perform env tr :
  allocate_buffers env tr = perform allocate_calls env tr.
Proof.
  unfold allocate_buffers, allocate_calls. unroll_streams.
Qed.

Lemma copy_in_perform inputLength i env tr :
  copy_in inputLength i env tr = perform (copy_in_calls inputLength i) env tr.
Proof.
  unfold copy_in, copy_in_calls, copySize. unroll_streams.
Qed.

Lemma compute_perform inputLength i env tr :
  compute inputLength i env tr = perform (compute_calls inputLength i) env tr.
Proof.
  unfold compute, compute_calls, copySize. unroll_streams. reflexivity.
Qed.

Lemma copy_out_perform inputLength i env tr :
  copy_out inputLength i env tr = perform (copy_out_calls inputLength i) env tr.
Proof.
  unfold copy_out, copy_out_calls, copySize. unroll_streams.
Qed.

Lemma free_buffers_perform env tr :
  free_buffers env tr = perform free_calls env tr.
Proof.
  unfold free_buffers, free_calls. unroll_streams.
Qed.

Lemma chunk_perform inputLength i env tr :
  chunk inputLength i env tr = perform (chunk_calls inputLength i) env tr.
Proof.
  unfold chunk, chunk_calls. rewrite perform_app.
  apply bind_ext; [apply copy_in_perform|]. intros _ env1 tr1.
  rewrite perform_app.
  apply bind_ext; [apply compute_perform|]. intros _ env2 tr2.
  apply copy_out_perform.
Qed.

Lemma scheduler_perform fuel inputLength : forall i env tr,
  scheduler fuel inputLength i env tr
  = (perform (fst (sweep fuel inputLength i)) ;;
     stop_unless (snd (sweep fuel inputLength i))) env tr.
Proof.
  induction fuel as [|fuel IH]; intros i env tr.
  - cbn [scheduler sweep]. destruct (i <? inputLength); reflexivity.
  - cbn [scheduler sweep]. destruct (i <? inputLength); [|reflexivity].
    cbn [fst snd].
    transitivity ((perform (chunk_calls inputLength i) ;;
                   perform (fst (sweep fuel inputLength (int_add i (int_mul segmentSize N_STREAMS)))) ;;
                   stop_unless (snd (sweep fuel inputLength (int_add i (int_mul segmentSize N_STREAMS))))) env tr).
    + apply bind_ext; [apply chunk_perform|]. intros _ env1 tr1. apply IH.
    + symmetry. 
      rewrite <- (bind_assoc (perform (chunk_calls inputLength i))).
      apply bind_ext; [|reflexivity].
      intros env1 tr1. apply perform_app.
Qed.

Lemma perform_app_then {B} l1 l2 (k : unit -> M B) env tr :
  (x <- perform (l1 ++ l2) ;; k x) env tr
  = (perform l1 ;; x <- perform l2 ;; k x) env tr.
Proof.
  rewrite <- bind_assoc. apply bind_ext; [|reflexivity].
  intros env1 tr1. apply perform_app.
Qed.

Lemma epilogue_perform inputLength env tr :
  (invoke (wbSolution inputLength) ;; free_buffers ;;
   invoke (free hostInput1) ;; invoke (free hostInput2) ;;
   invoke (free hostOutput) ;; ret 0) env tr
  = (perform (epilogue_calls inputLength) ;; ret 0) env tr.
Proof.
  unfold epilogue_calls.
  change ([wbSolution inputLength] ++ ?l) with (wbSolution inputLength :: l).
  cbn [perform check_line].
  rewrite bind_assoc. apply bind_ext; [reflexivity|]. intros _ env1 tr1.
  rewrite perform_app_then.
  apply bind_ext; [apply free_buffers_perform|]. intros _ env3 tr3.
  cbn [perform check_line].
  rewrite bind_assoc. apply bind_ext; [reflexivity|]. intros _ env4 tr4.
  rewrite bind_assoc. apply bind_ext; [reflexivity|]. intros _ env5 tr5.
  rewrite bind_assoc. apply bind_ext; [reflexivity|]. intros _ env6 tr6.
  reflexivity.
Qed.

Lemma main_perform fuel inputLength env :
  run_main fuel env inputLength
  = (perform (create_calls ++ allocate_calls ++ fst (sweep fuel inputLength 0)) ;;
     stop_unless (snd (sweep fuel inputLength 0)) ;;
     perform (epilogue_calls inputLength) ;;
     ret 0) env [].
Proof.
  unfold run_main, main.
  rewrite perform_app_then.
  apply bind_ext; [apply create_streams_perform|]. intros _ env1 tr1.
  rewrite perform_app_then.
  apply bind_ext; [apply allocate_buffers_perform|]. intros _ env2 tr2.
  rewrite <- (bind_assoc (perform (fst (sweep fuel inputLength 0)))).
  apply bind_ext; [intros; apply scheduler_perform|]. intros _ env3 tr3.
  apply epilogue_perform.
Qed.

(* ================================================================= *)
(** ** Arithmetic of [int] and of the segment length *)

Lemma wrap_int_id x : in_int x -> wrap_int x = x.
Proof.
  unfold in_int, INT_MIN, INT_MAX, wrap_int. intros H.
  rewrite Z.mod_small; lia.
Qed.

Lemma wrap_int_range x : in_int (wrap_int x).
Proof.
  unfold in_int, INT_MIN, INT_MAX, wrap_int.
  pose proof (Z.mod_pos_bound (x + 2 ^ 31) (2 ^ 32) ltac:(lia)). lia.
Qed.

Lemma stream_cases s : 0 <= s < N_STREAMS -> s = 0 \/ s = 1 \/ s = 2 \/ s = 3.
Proof. unfold N_STREAMS. lia. Qed.

Lemma zrange_streams : zrange N_STREAMS = [0; 1; 2; 3].
Proof. reflexivity. Qed.

Lemma stride_value : int_mul segmentSize N_STREAMS = 512.
Proof. reflexivity. Qed.

Lemma grid_value : int_add (int_div (int_sub segmentSize 1) BLOCK_SIZE) 1 = 1.
Proof. reflexivity. Qed.

Lemma min_spec a b : min a b = Z.min a b.
Proof. unfold min. destruct (Z.ltb_spec a b); lia. Qed.

Lemma max_spec a b : max a b = Z.max a b.
Proof. unfold max. rewrite Z.gtb_ltb. destruct (Z.ltb_spec b a); lia. Qed.

(** Where no subtraction wraps, the segment length is the clamp of what is
    left of the input at the segment's offset. *)
Lemma copySize_clamp inputLength i s :
  0 <= i <= inputLength -> inputLength <= INT_MAX -> 0 <= s < N_STREAMS ->
  copySize inputLength i s
  = Z.max (Z.min segmentSize (inputLength - (i + s * segmentSize))) 0.
Proof.
  intros Hi HL Hs. unfold copySize, int_sub, int_mul, segmentSize, INT_MAX in *.
  rewrite min_spec, max_spec.
  assert (H1 : wrap_int (s * 128) = s * 128)
    by (apply wrap_int_id; unfold in_int, INT_MIN, INT_MAX, N_STREAMS in *; lia).
  assert (H2 : wrap_int (inputLength - i) = inputLength - i)
    by (apply wrap_int_id; unfold in_int, INT_MIN, INT_MAX; lia).
  rewrite H1, H2.
  rewrite wrap_int_id by (unfold in_int, INT_MIN, INT_MAX, N_STREAMS in *; lia).
  f_equal. f_equal. lia.
Qed.

Lemma copySize_bounds inputLength i s :
  0 <= copySize inputLength i s <= segmentSize.
Proof.
  unfold copySize. rewrite max_spec, min_spec. unfold segmentSize. lia.
Qed.

Lemma count_of_copySize inputLength i s :
  wrap_size (copySize inputLength i s * sizeof_float) / sizeof_float
  = copySize inputLength i s.
Proof.
  pose proof (copySize_bounds inputLength i s) as H. unfold segmentSize in H.
  unfold wrap_size, sizeof_float.
  rewrite Z.mod_small by lia.
  apply Z.div_mul. lia.
Qed.

Lemma count_zero_iff inputLength i s :
  wrap_size (copySize inputLength i s * sizeof_float) = 0
  <-> copySize inputLength i s = 0.
Proof.
  pose proof (copySize_bounds inputLength i s) as H. unfold segmentSize in H.
  unfold wrap_size, sizeof_float.
  rewrite Z.mod_small by lia. lia.
Qed.

(** The next value of [i] in the range where [i += 512] stays an [int]. *)
Lemma next_chunk_exact inputLength i :
  0 <= i < inputLength -> inputLength <= INT_MAX - 511 ->
  int_add i (int_mul segmentSize N_STREAMS) = i + 512.
Proof.
  intros Hi HL. rewrite stride_value. unfold int_add.
  apply wrap_int_id. unfold in_int, INT_MIN, INT_MAX in *. lia.
Qed.

Lemma chunks_step inputLength i :
  i < inputLength ->
  chunks (inputLength - i) = S (chunks (inputLength - (i + 512))).
Proof.
  intros H. unfold chunks.
  assert (E : (inputLength - i + 511) / 512 = (inputLength - (i + 512) + 511) / 512 + 1).
  { replace (inputLength - i + 511) with ((inputLength - (i + 512) + 511) + 1 * 512) by lia.
    apply Z.div_add. lia. }
  assert (P : 0 <= (inputLength - (i + 512) + 511) / 512)
    by (apply Z.div_pos; lia).
  rewrite E. rewrite Z2Nat.inj_add by lia.
  change (Z.to_nat 1) with 1%nat. lia.
Qed.

(* ================================================================= *)
(** ** Runs of a list of calls *)

Lemma perform_all_succeed l : forall tr,
  perform l all_succeed tr = Returned tt (tr ++ l).
Proof.
  induction l as [|c l IH]; intros tr.
  - cbn. now rewrite app_nil_r.
  - cbn [perform]. unfold bind at 1.
    assert (E : match check_line c with
                | Some line => err <- api c ;; check err line
                | None => invoke c
                end all_succeed tr = Returned tt (tr ++ [c])).
    { destruct (check_line c); reflexivity. }
    rewrite E, IH, <- app_assoc. reflexivity.
Qed.

(** One call with its [check]: it is recorded, and either the run goes on
    or the process exits with the diagnostic of that call. *)
Lemma perform_one c env tr :
  match check_line c with
  | Some line => err <- api c ;; check err line
  | None => invoke c
  end env tr
  = match check_line c with
    | Some line =>
        if env (length tr) =? cudaSuccess
        then Returned tt (tr ++ [c])
        else Exited EXIT_FAILURE [Diagnostic (env (length tr)) FILE_ line] (tr ++ [c])
    | None => Returned tt (tr ++ [c])
    end.
Proof.
  destruct (check_line c) as [line|]; [|reflexivity].
  unfold bind, api, check. destruct (env (length tr) =? cudaSuccess); reflexivity.
Qed.

Lemma perform_cons c l env tr :
  perform (c :: l) env tr
  = match check_line c with
    | Some line =>
        if env (length tr) =? cudaSuccess
        then perform l env (tr ++ [c])
        else Exited EXIT_FAILURE [Diagnostic (env (length tr)) FILE_ line] (tr ++ [c])
    | None => perform l env (tr ++ [c])
    end.
Proof.
  cbn [perform]. unfold bind at 1. rewrite perform_one.
  destruct (check_line c); [destruct (env (length tr) =? cudaSuccess)|]; reflexivity.
Qed.

Lemma perform_never_out_of_fuel l : forall env tr tr',
  perform l env tr <> OutOfFuel tr'.
Proof.
  induction l as [|c l IH]; intros env tr tr'.
  - discriminate.
  - rewrite perform_cons.
    destruct (check_line c); [destruct (env (length tr) =? cudaSuccess)|];
      try apply IH; discriminate.
Qed.

Lemma perform_returned l : forall env tr u tr',
  perform l env tr = Returned u tr' -> tr' = tr ++ l.
Proof.
  induction l as [|c l IH]; intros env tr u tr' H.
  - cbn in H. inversion H. now rewrite app_nil_r.
  - rewrite perform_cons in H.
    destruct (check_line c); [destruct (env (length tr) =? cudaSuccess)|];
      try discriminate; apply IH in H; rewrite H, <- app_assoc; reflexivity.
Qed.

(** The trace of a run of [l] extends the trace before it by a prefix of
    [l]. *)
Lemma perform_trace l : forall env tr,
  exists l1 l2, l = l1 ++ l2 /\ trace_of (perform l env tr) = tr ++ l1.
Proof.
  induction l as [|c l IH]; intros env tr.
  - exists [], []. cbn. now rewrite app_nil_r.
  - rewrite perform_cons.
    destruct (check_line c) as [line|].
    + destruct (env (length tr) =? cudaSuccess).
      * destruct (IH env (tr ++ [c])) as (l1 & l2 & -> & E).
        exists (c :: l1), l2. split; [reflexivity|].
        rewrite E, <- app_assoc. reflexivity.
      * exists [c], l. split; reflexivity.
    + destruct (IH env (tr ++ [c])) as (l1 & l2 & -> & E).
      exists (c :: l1), l2. split; [reflexivity|].
      rewrite E, <- app_assoc. reflexivity.
Qed.

(** A checked call that is answered with a failure ends the run: the
    process exits with [EXIT_FAILURE], the diagnostic carries the code, the
    file and the line of that call's [check], and the call is the last one
    of the trace. *)
Lemma perform_failure l : forall env tr k c,
  (length tr <= k)%nat ->
  nth_error (trace_of (perform l env tr)) k = Some c ->
  check_line c <> None ->
  env k <> cudaSuccess ->
  exists line,
    check_line c = Some line /\
    perform l env tr
    = Exited EXIT_FAILURE [Diagnostic (env k) FILE_ line]
             (firstn (S k) (trace_of (perform l env tr))) /\
    length (trace_of (perform l env tr)) = S k.
Proof.
  induction l as [|c0 l IH]; intros env tr k c Hk Hn Hc He.
  - cbn in Hn. assert (Hs : nth_error tr k <> None) by congruence.
    apply nth_error_Some in Hs. lia.
  - rewrite perform_cons in *.
    assert (Hlen : length (tr ++ [c0]) = S (length tr))
      by (rewrite length_app; cbn; lia).
    destruct (Nat.eq_dec k (length tr)) as [->|Hne].
    + (* the call at hand *)
      assert (c = c0).
      { destruct (perform_trace l env (tr ++ [c0])) as (l1 & l2 & _ & E).
        destruct (check_line c0);
          [destruct (env (length tr) =? cudaSuccess)|];
          cbn [trace_of] in Hn; try rewrite E in Hn;
          try rewrite <- app_assoc in Hn;
          rewrite nth_error_app2 in Hn by lia;
          rewrite Nat.sub_diag in Hn; cbn in Hn; congruence. }
      subst c0. destruct (check_line c) as [line|]; [|congruence].
      exists line. split; [reflexivity|].
      destruct (Z.eqb_spec (env (length tr)) cudaSuccess); [contradiction|].
      cbn [trace_of]. rewrite Hlen. split; [|reflexivity].
      rewrite <- Hlen, firstn_all. reflexivity.
    + assert (Hk' : (length (tr ++ [c0]) <= k)%nat) by lia.
      destruct (check_line c0) as [line0|].
      * destruct (env (length tr) =? cudaSuccess).
        -- apply IH; assumption.
        -- cbn [trace_of] in Hn.
           assert (Hs : nth_error (tr ++ [c0]) k <> None) by congruence.
           apply nth_error_Some in Hs. lia.
      * apply IH; assumption.
Qed.

(* ================================================================= *)
(** ** [main] as a run of its list of calls *)

Lemma run_main_perform fuel inputLength env :
  run_main fuel env inputLength
  = conclude fuel inputLength (perform (attempted fuel inputLength) env []).
Proof.
  rewrite main_perform. unfold attempted, conclude, program.
  destruct (snd (sweep fuel inputLength 0)) eqn:Hs.
  - rewrite !app_assoc. rewrite perform_app. rewrite <- !app_assoc.
    unfold bind, stop_unless, ret.
    destruct (perform (create_calls ++ allocate_calls ++ fst (sweep fuel inputLength 0)) env []);
      reflexivity.
  - unfold bind, stop_unless.
    destruct (perform (create_calls ++ allocate_calls ++ fst (sweep fuel inputLength 0)) env []);
      reflexivity.
Qed.

Lemma trace_of_conclude fuel inputLength r :
  trace_of (conclude fuel inputLength r) = trace_of r.
Proof.
  destruct r; cbn; [destruct (snd (sweep fuel inputLength 0))|..]; reflexivity.
Qed.

(** A run that returns from [main] made exactly the calls of [program]. *)
Lemma run_main_returned fuel env inputLength a tr :
  run_main fuel env inputLength = Returned a tr ->
  a = 0 /\ snd (sweep fuel inputLength 0) = true /\ tr = program fuel inputLength.
Proof.
  rewrite run_main_perform. unfold conclude, attempted.
  destruct (snd (sweep fuel inputLength 0)) eqn:Hs.
  - destruct (perform (program fuel inputLength) env []) eqn:Hp; try discriminate.
    intros H. inversion H. subst. apply perform_returned in Hp. auto.
  - destruct (perform _ env []); discriminate.
Qed.

Lemma run_main_all_succeed fuel inputLength :
  snd (sweep fuel inputLength 0) = true ->
  run_main fuel all_succeed inputLength = Returned 0 (program fuel inputLength).
Proof.
  intros Hs. rewrite run_main_perform. unfold conclude, attempted.
  rewrite Hs, perform_all_succeed. reflexivity.
Qed.

(* ================================================================= *)
(** ** The sweep of the outer loop *)

(** In the range where [i += 512] cannot wrap, the loop ends within
    [chunks] iterations. *)
Lemma sweep_ends inputLength : forall fuel i,
  0 <= i -> inputLength <= INT_MAX - 511 ->
  (chunks (inputLength - i) <= fuel)%nat ->
  snd (sweep fuel inputLength i) = true.
Proof.
  induction fuel as [|fuel IH]; intros i Hi HL Hf.
  - cbn. destruct (Z.ltb_spec i inputLength); [|reflexivity].
    rewrite (chunks_step inputLength i) in Hf by lia. lia.
  - cbn [sweep]. destruct (Z.ltb_spec i inputLength); [|reflexivity].
    cbn [snd]. rewrite (next_chunk_exact inputLength) by lia.
    apply IH; try lia.
    rewrite (chunks_step inputLength i) in Hf by lia. lia.
Qed.

(** More fuel than needed changes nothing. *)
Lemma sweep_fuel_irrelevant inputLength : forall fuel fuel' i,
  snd (sweep fuel inputLength i) = true ->
  snd (sweep fuel' inputLength i) = true ->
  sweep fuel inputLength i = sweep fuel' inputLength i.
Proof.
  induction fuel as [|fuel IH]; intros fuel' i H H'.
  - cbn in *. destruct (i <? inputLength) eqn:E; [discriminate|].
    destruct fuel'; cbn; rewrite E; reflexivity.
  - destruct fuel' as [|fuel'].
    + cbn in H'. cbn. destruct (i <? inputLength) eqn:E; [discriminate|reflexivity].
    + cbn [sweep] in *. destruct (i <? inputLength) eqn:E; [|reflexivity].
      cbn [snd] in *. rewrite (IH fuel' _ H H'). reflexivity.
Qed.

(* ================================================================= *)
(** ** Loads, stores and copies *)

Lemma nth_firstn_lt (l : list float) n i :
  (i < n)%nat -> nth i (firstn n l) fzero = nth i l fzero.
Proof.
  intros H. rewrite nth_firstn.
  destruct (Nat.ltb_spec i n); [reflexivity|lia].
Qed.

Lemma zlength_nonneg l : 0 <= zlength l.
Proof. unfold zlength. lia. Qed.

Lemma load_in_bounds l i :
  0 <= i < zlength l -> load l i = Some (get l i).
Proof.
  unfold load, get, zlength. intros H.
  destruct (Z.leb_spec 0 i); [|lia].
  apply nth_error_nth'. lia.
Qed.

Lemma length_poke l i v : (i < length l)%nat -> length (poke l i v) = length l.
Proof.
  intros H. unfold poke. rewrite length_app, length_firstn. cbn [length].
  rewrite length_skipn. lia.
Qed.

Lemma nth_poke l i v j :
  (i < length l)%nat ->
  nth j (poke l i v) fzero = if Nat.eqb j i then v else nth j l fzero.
Proof.
  intros H. unfold poke.
  destruct (Nat.eqb_spec j i) as [->|Hne].
  - rewrite app_nth2 by (rewrite length_firstn; lia).
    rewrite length_firstn. replace (i - Nat.min i (length l))%nat with 0%nat by lia.
    reflexivity.
  - destruct (Nat.lt_ge_cases j i) as [Hlt|Hge].
    + rewrite app_nth1 by (rewrite length_firstn; lia).
      apply nth_firstn_lt. exact Hlt.
    + rewrite app_nth2 by (rewrite length_firstn; lia).
      rewrite length_firstn. replace (Nat.min i (length l)) with i by lia.
      destruct (j - i)%nat as [|d] eqn:E; [lia|]. cbn [nth].
      rewrite nth_skipn. f_equal. lia.
Qed.

Lemma store_in_bounds l i v :
  0 <= i < zlength l -> store l i v = Some (poke l (Z.to_nat i) v).
Proof.
  unfold store. intros H.
  destruct (Z.leb_spec 0 i); [|lia]. destruct (Z.ltb_spec i (zlength l)); [|lia].
  reflexivity.
Qed.

(** A copy of no element touches nothing, wherever its pointers are. *)
Lemma copy_floats_zero src so dst d0 :
  copy_floats src so dst d0 0 = Some dst.
Proof. reflexivity. Qed.

Lemma copy_floats_in_bounds src so dst d0 n :
  0 <= n -> 0 <= so -> so + n <= zlength src -> 0 <= d0 -> d0 + n <= zlength dst ->
  exists r,
    copy_floats src so dst d0 n = Some r /\
    length r = length dst /\
    forall idx, 0 <= idx ->
      get r idx = if (d0 <=? idx) && (idx <? d0 + n)
                  then get src (idx - d0 + so) else get dst idx.
Proof.
  intros Hn Hso Hsrc Hd Hdst. unfold copy_floats.
  destruct (Z.leb_spec n 0) as [Hz|Hpos].
  - exists dst. split; [reflexivity|]. split; [reflexivity|].
    intros idx Hidx.
    destruct (Z.leb_spec d0 idx), (Z.ltb_spec idx (d0 + n)); cbn; try reflexivity; lia.
  - destruct (Z.leb_spec 0 so); [|lia].
    destruct (Z.leb_spec (so + n) (zlength src)); [|lia].
    destruct (Z.leb_spec 0 d0); [|lia].
    destruct (Z.leb_spec (d0 + n) (zlength dst)); [|lia].
    cbn [andb]. eexists. split; [reflexivity|].
    unfold zlength in *.
    assert (L1 : length (firstn (Z.to_nat d0) dst) = Z.to_nat d0)
      by (rewrite length_firstn; lia).
    assert (L2 : length (firstn (Z.to_nat n) (skipn (Z.to_nat so) src)) = Z.to_nat n)
      by (rewrite length_firstn, length_skipn; lia).
    split.
    + rewrite !length_app, L1, L2, length_skipn. lia.
    + intros idx Hidx. unfold get.
      destruct (Z.leb_spec d0 idx) as [Hlo|Hlo]; cbn [andb].
      * rewrite app_nth2 by lia. rewrite L1.
        destruct (Z.ltb_spec idx (d0 + n)) as [Hhi|Hhi].
        -- rewrite app_nth1 by lia.
           rewrite nth_firstn_lt by lia. rewrite nth_skipn. f_equal. lia.
        -- rewrite app_nth2 by lia. rewrite L2, nth_skipn. f_equal. lia.
      * rewrite app_nth1 by lia. apply nth_firstn_lt. lia.
Qed.

(** Whether a copy faults depends on the destination only through its
    length. *)
Lemma copy_floats_some_length src so dst dst' d0 n r :
  length dst = length dst' ->
  copy_floats src so dst d0 n = Some r ->
  exists r', copy_floats src so dst' d0 n = Some r'.
Proof.
  intros Hl. unfold copy_floats, zlength. rewrite Hl.
  destruct (n <=? 0); [eauto|].
  destruct ((0 <=? so) && (so + n <=? Z.of_nat (length src)) && (0 <=? d0)
            && (d0 + n <=? Z.of_nat (length dst'))); [eauto|discriminate].
Qed.

(** What a successful copy leaves in the destination. *)
Lemma copy_floats_result src so dst d0 n r :
  copy_floats src so dst d0 n = Some r ->
  length r = length dst /\
  forall idx, 0 <= idx ->
    get r idx = if (d0 <=? idx) && (idx <? d0 + n)
                then get src (idx - d0 + so) else get dst idx.
Proof.
  intros H. 
  destruct (Z.leb_spec n 0) as [Hz|Hpos].
  - unfold copy_floats in H. destruct (Z.leb_spec n 0); [|lia].
    inversion H; subst. split; [reflexivity|]. intros idx Hidx.
    destruct (Z.leb_spec d0 idx), (Z.ltb_spec idx (d0 + n)); cbn; try reflexivity; lia.
  - assert (B : 0 <= so /\ so + n <= zlength src /\ 0 <= d0 /\ d0 + n <= zlength dst).
    { unfold copy_floats in H. destruct (Z.leb_spec n 0); [lia|].
      destruct (Z.leb_spec 0 so); [|discriminate].
      destruct (Z.leb_spec (so + n) (zlength src)); [|discriminate].
      destruct (Z.leb_spec 0 d0); [|discriminate].
      destruct (Z.leb_spec (d0 + n) (zlength dst)); [|discriminate].
      lia. }
    destruct (copy_floats_in_bounds src so dst d0 n) as (r' & E & Hlen & Hget); try lia.
    rewrite H in E. inversion E; subst. auto.
Qed.

(* ================================================================= *)
(** ** The kernel *)

Lemma get_ext l l' :
  length l = length l' ->
  (forall idx, 0 <= idx -> get l idx = get l' idx) ->
  l = l'.
Proof.
  intros Hlen H. apply (nth_ext l l' fzero fzero Hlen).
  intros n _. specialize (H (Z.of_nat n) ltac:(lia)).
  unfold get in H. now rewrite Nat2Z.id in H.
Qed.

Lemma get_poke l i v idx :
  0 <= i < zlength l -> 0 <= idx ->
  get (poke l (Z.to_nat i) v) idx = if idx =? i then v else get l idx.
Proof.
  unfold zlength, get. intros Hi Hidx. rewrite nth_poke by lia.
  destruct (Nat.eqb_spec (Z.to_nat idx) (Z.to_nat i)), (Z.eqb_spec idx i);
    try reflexivity; lia.
Qed.

Lemma in_zrange x n : In x (zrange n) <-> 0 <= x < n.
Proof.
  unfold zrange. rewrite in_map_iff. split.
  - intros (k & <- & Hk). apply in_seq in Hk. lia.
  - intros H. exists (Z.to_nat x). split; [lia|]. apply in_seq. lia.
Qed.

Lemma in_grid_threads b t grid block :
  In (b, t) (grid_threads grid block) <-> 0 <= b < grid /\ 0 <= t < block.
Proof.
  unfold grid_threads. rewrite in_flat_map. split.
  - intros (b' & Hb & Hin). apply in_map_iff in Hin.
    destruct Hin as (t' & E & Ht). inversion E; subst.
    apply in_zrange in Hb. apply in_zrange in Ht. auto.
  - intros [Hb Ht]. exists b. split; [now apply in_zrange|].
    apply in_map_iff. exists t. split; [reflexivity|now apply in_zrange].
Qed.

Lemma global_index_exact b bd t :
  0 <= b * bd -> 0 <= t -> b * bd + t <= INT_MAX ->
  wrap_int (wrap_uint (wrap_uint (b * bd) + t)) = b * bd + t.
Proof.
  unfold INT_MAX. intros Hb Ht Hmax. unfold wrap_uint.
  rewrite (Z.mod_small (b * bd)) by lia.
  rewrite Z.mod_small by lia.
  apply wrap_int_id. unfold in_int, INT_MIN, INT_MAX. lia.
Qed.

(** One thread: inside [len] it writes the sum at its index, outside it
    writes nothing; it never faults when [len] is within the buffers. *)
Lemma vecAdd_thread in1 in2 out len b bd t :
  0 <= b * bd -> 0 <= t -> b * bd + t <= INT_MAX ->
  len <= zlength in1 -> len <= zlength in2 -> len <= zlength out ->
  vecAdd in1 in2 out len b bd t
  = Some (if b * bd + t <? len
          then poke out (Z.to_nat (b * bd + t))
                    (fadd (get in1 (b * bd + t)) (get in2 (b * bd + t)))
          else out).
Proof.
  intros Hb Ht Hmax H1 H2 H3. unfold vecAdd.
  rewrite global_index_exact by assumption.
  destruct (Z.ltb_spec (b * bd + t) len); [|reflexivity].
  rewrite !load_in_bounds by lia.
  apply store_in_bounds. lia.
Qed.

(** The threads of a launch in any order: no fault, and the output holds
    the sum at every covered index below [len] and is untouched elsewhere. *)
Lemma run_threads_spec in1 in2 len bd : forall order out,
  Forall (thread_ok bd) order ->
  len <= zlength in1 -> len <= zlength in2 -> len <= zlength out ->
  exists out',
    run_threads order bd in1 in2 len out = Some out' /\
    length out' = length out /\
    forall j, 0 <= j ->
      get out' j = if (j <? len) && covers order bd j
                   then fadd (get in1 j) (get in2 j) else get out j.
Proof.
  induction order as [|[b t] order IH]; intros out Hok H1 H2 H3.
  - exists out. split; [reflexivity|]. split; [reflexivity|].
    intros j Hj. cbn. now rewrite andb_false_r.
  - inversion Hok as [|? ? [Hb [Ht Hmax]] Hok']; subst. cbn [fst snd] in *.
    cbn [run_threads]. rewrite vecAdd_thread by assumption.
    assert (Hidx : 0 <= b * bd + t) by lia.
    remember (b * bd + t) as idx eqn:Eidx.
    set (out1 := if idx <? len
                 then poke out (Z.to_nat idx) (fadd (get in1 idx) (get in2 idx))
                 else out).
    assert (Hlen1 : length out1 = length out).
    { unfold out1. destruct (Z.ltb_spec idx len); [|reflexivity].
      apply length_poke. unfold zlength in *. lia. }
    destruct (IH out1 Hok' H1 H2) as (out' & E & Hlen & Hget).
    { unfold zlength in *. rewrite Hlen1. exact H3. }
    exists out'. split; [exact E|]. split; [congruence|].
    intros j Hj. rewrite (Hget j Hj). unfold covers. cbn [existsb fst snd].
    fold (covers order bd j). rewrite <- Eidx.
    destruct (Z.ltb_spec j len) as [Hjl|Hjl]; cbn [andb].
    + destruct (covers order bd j); [now rewrite orb_true_r|].
      rewrite orb_false_r. unfold out1.
      destruct (Z.eqb_spec idx j) as [->|Hne].
      * destruct (Z.ltb_spec j len); [|lia].
        rewrite get_poke by lia. now rewrite Z.eqb_refl.
      * destruct (Z.ltb_spec idx len); [|reflexivity].
        rewrite get_poke by lia.
        destruct (Z.eqb_spec j idx); [congruence|reflexivity].
    + unfold out1. destruct (Z.ltb_spec idx len); [|reflexivity].
      rewrite get_poke by lia.
      destruct (Z.eqb_spec j idx); [lia|reflexivity].
Qed.

Lemma covers_in order bd j :
  covers order bd j = true <-> exists b t, In (b, t) order /\ b * bd + t = j.
Proof.
  unfold covers. rewrite existsb_exists. split.
  - intros ([b t] & Hin & E). exists b, t. cbn in E. split; [assumption|lia].
  - intros (b & t & Hin & E). exists (b, t). cbn. split; [assumption|lia].
Qed.

Lemma covers_permutation order order' bd j :
  Permutation order order' -> covers order bd j = covers order' bd j.
Proof.
  intros P. apply eq_true_iff_eq. rewrite !covers_in.
  split; intros (b & t & Hin & E); exists b, t; split; auto.
  - eapply Permutation_in; eassumption.
  - eapply Permutation_in; [apply Permutation_sym|]; eassumption.
Qed.

Lemma grid_threads_ok grid block :
  grid * block <= INT_MAX ->
  Forall (thread_ok block) (grid_threads grid block).
Proof.
  intros H. apply Forall_forall. intros [b t] Hin.
  apply in_grid_threads in Hin. unfold thread_ok. cbn [fst snd]. nia.
Qed.

Lemma covers_grid grid block j :
  0 < block -> 0 <= j < grid * block ->
  covers (grid_threads grid block) block j = true.
Proof.
  intros Hb Hj. apply covers_in. exists (j / block), (j mod block).
  split.
  - apply in_grid_threads. split.
    + split; [apply Z.div_pos; lia|]. apply Z.div_lt_upper_bound; lia.
    + apply Z.mod_pos_bound. lia.
  - rewrite Z.mul_comm. symmetry. apply Z.div_mod. lia.
Qed.

Lemma covers_grid_only grid block j :
  0 <= j -> covers (grid_threads grid block) block j = true -> j < grid * block.
Proof.
  intros Hj H. apply covers_in in H. destruct H as (b & t & Hin & E).
  apply in_grid_threads in Hin. nia.
Qed.

(** A launch whose grid covers [len] slots of buffers that hold at least
    [len] elements. *)
Lemma launch_spec grid block in1 in2 out len :
  0 < block -> grid * block <= INT_MAX -> len <= grid * block ->
  len <= zlength in1 -> len <= zlength in2 -> len <= zlength out ->
  exists out',
    launch grid block in1 in2 out len = Some out' /\
    length out' = length out /\
    forall j, 0 <= j ->
      get out' j = if j <? len then fadd (get in1 j) (get in2 j) else get out j.
Proof.
  intros Hb Hg Hl H1 H2 H3. unfold launch.
  destruct (run_threads_spec in1 in2 len block (grid_threads grid block) out)
    as (out' & E & Hlen & Hget); try assumption.
  { now apply grid_threads_ok. }
  exists out'. split; [exact E|]. split; [exact Hlen|].
  intros j Hj. rewrite (Hget j Hj).
  destruct (Z.ltb_spec j len); [|reflexivity].
  rewrite covers_grid by lia. reflexivity.
Qed.

(* ================================================================= *)
(** ** Any interleaving agrees with the streams taken in isolation *)

Section SimulationProof.

Variables in1 in2 : list float.
Variable junk : dev_array -> Z -> list float.
Variable final : Z -> option (triple * list float).
Hypothesis final_defined : forall s, 0 <= s < N_STREAMS -> final s <> None.

Local Abbreviation lrun' := (lrun in1 in2 junk).
Local Abbreviation lstep' := (lstep in1 in2 junk).
Local Abbreviation sim' := (sim in1 in2 junk final).
Local Abbreviation step' := (step in1 in2 junk).
Local Abbreviation run' := (run in1 in2 junk).
Local Abbreviation execute' := (execute in1 in2).

Lemma lrun_app s l1 l2 st : lrun' s (l1 ++ l2) st = lrun' s l2 (lrun' s l1 st).
Proof. apply fold_left_app. Qed.

Lemma lrun_none s l : lrun' s l None = None.
Proof. induction l; [reflexivity|assumption]. Qed.

Lemma lstep_other s st c :
  is_malloc c = false -> stream_of c <> Some s -> lstep' s st c = st.
Proof.
  intros Hm Hs. destruct st as [[t out]|]; [|reflexivity].
  destruct c; cbn in *; try discriminate; try reflexivity;
    match goal with
    | |- (if ?x =? s then _ else _) = _ =>
        destruct (Z.eqb_spec x s); [subst; congruence|reflexivity]
    end.
Qed.

Lemma lstep_bound s t out c :
  stream_of c = Some s -> lstep' s (Some (t, out)) c = execute' c t out.
Proof.
  intros Hs. destruct c; cbn in *; try discriminate;
    inversion Hs; subst; now rewrite Z.eqb_refl.
Qed.

Lemma agree_refl s out : agree s out out.
Proof. split; auto. Qed.

(** An operation of stream [s0] seen from the stream's own view of the
    output block and from the shared block. *)
Lemma execute_views c s0 t lout out t' lout' :
  stream_of c = Some s0 -> placed c ->
  agree s0 lout out ->
  execute' c t lout = Some (t', lout') ->
  exists out',
    execute' c t out = Some (t', out') /\
    agree s0 lout' out' /\
    forall s lo, s <> s0 -> agree s lo out -> agree s lo out'.
Proof.
  intros Hs Hp [Hlen Hag] He.
  destruct c; cbn in Hs; try discriminate; inversion Hs; subst; cbn in He, Hp |- *.
  - (* copy-in *)
    destruct Hp as [_ Hsrc].
    assert (Hb : host_block in1 in2 src lout = host_block in1 in2 src out)
      by (destruct src; [reflexivity|reflexivity|congruence]).
    rewrite <- Hb.
    destruct (copy_floats (host_block in1 in2 src lout) off (get_buf a t) 0
                          (count / sizeof_float)); [|discriminate].
    inversion He; subst. exists out.
    split; [reflexivity|]. split; [split; assumption|]. auto.
  - (* launch *)
    destruct (launch grid block (dIn1 t) (dIn2 t) (dOut t) len); [|discriminate].
    inversion He; subst. exists out.
    split; [reflexivity|]. split; [split; assumption|]. auto.
  - (* copy-out *)
    destruct Hp as [_ Hown].
    destruct (copy_floats (dOut t) 0 lout off (count / sizeof_float)) as [r|] eqn:E;
      [|discriminate].
    inversion He; subst.
    destruct (copy_floats_some_length _ _ _ out _ _ _ Hlen E) as (r' & E').
    rewrite E'. exists r'. split; [reflexivity|].
    destruct (copy_floats_result _ _ _ _ _ _ E) as [Hl1 Hg1].
    destruct (copy_floats_result _ _ _ _ _ _ E') as [Hl2 Hg2].
    split; [split|].
    + congruence.
    + intros idx Hidx Ho. rewrite Hg1, Hg2 by assumption.
      destruct ((off <=? idx) && (idx <? off + count / sizeof_float)); auto.
    + intros s lo Hne [Hlo Hago]. split; [congruence|].
      intros idx Hidx Ho. rewrite Hg2 by assumption.
      destruct (Z.leb_spec off idx), (Z.ltb_spec idx (off + count / sizeof_float));
        cbn [andb]; auto.
      exfalso. apply Hne. rewrite <- Ho. apply Hown. lia.
Qed.

Lemma exists_malloc_cons c l :
  Exists (fun c => is_malloc c = true) l ->
  Exists (fun c => is_malloc c = true) (c :: l).
Proof. intros H. now apply Exists_cons_tl. Qed.

Lemma no_malloc_not_exists l :
  Forall (fun c => is_malloc c = false) l ->
  ~ Exists (fun c => is_malloc c = true) l.
Proof.
  intros Hf He. apply Exists_exists in He. destruct He as (c & Hin & Hc).
  rewrite Forall_forall in Hf. specialize (Hf c Hin). congruence.
Qed.

(** A call that is neither an allocation nor asynchronous changes neither
    the queues nor the device buffers nor the output block. *)
Lemma step_host_preserves m c rest :
  sim' m -> pending m = c :: rest ->
  sim' (issue junk c (Machine rest (queue m) (dmem m) (out_vec m) (handed m) (faulted m))).
Proof.
  intros [Hf Hp Hq Hb Ha Hi Hl] Hpend. rewrite Hpend in *.
  assert (Hprest : Forall placed rest) by (inversion Hp; assumption).
  assert (Hpc : placed c) by (inversion Hp; assumption).
  destruct Ha as [Hac Harest].
  destruct (is_async c) eqn:Hasync.
  - (* an asynchronous call joins the queue of its stream *)
    assert (exists s0, stream_of c = Some s0) as [s0 Hs0].
    { unfold is_async in Hasync. destruct (stream_of c); [eauto|discriminate]. }
    assert (Hm : is_malloc c = false) by (destruct c; cbn in *; congruence).
    assert (Hissue : issue junk c (Machine rest (queue m) (dmem m) (out_vec m) (handed m) (faulted m))
                     = Machine rest (upd (queue m) s0 (queue m s0 ++ [c])) (dmem m)
                               (out_vec m) (handed m) (faulted m)).
    { destruct c; cbn in Hs0; try discriminate; inversion Hs0; subst; reflexivity. }
    rewrite Hissue. constructor; cbn [faulted pending queue dmem out_vec]; auto.
    + intros s. unfold upd. destruct (Z.eqb_spec s s0); [subst|apply Hq].
      apply Forall_app. split; [apply Hq|]. constructor; auto.
    + intros s. unfold upd. destruct (Z.eqb_spec s s0); [subst|apply Hb].
      apply Forall_app. split; [apply Hb|]. constructor; auto.
    + intros He. exfalso. apply (no_malloc_not_exists rest); auto.
    + intros s Hs. destruct (Hl s Hs) as (lout & Hag & Hrun).
      exists lout. split; [assumption|]. rewrite <- Hrun.
      unfold upd. destruct (Z.eqb_spec s s0) as [->|Hne].
      * rewrite <- app_assoc. reflexivity.
      * rewrite !lrun_app. cbn [lrun fold_left].
        rewrite lstep_other; [reflexivity|assumption|congruence].
  - assert (Hs : stream_of c = None)
      by (unfold is_async in Hasync; destruct (stream_of c); [discriminate|reflexivity]).
    destruct (is_malloc c) eqn:Hm.
    + (* an allocation: every queue is empty *)
      assert (Hempty : forall s, queue m s = []).
      { apply Hi. constructor. assumption. }
      destruct c; cbn in Hm; try discriminate.
      cbn [issue pending queue dmem out_vec handed faulted].
      constructor; cbn [faulted pending queue dmem out_vec]; auto.
      intros s0 Hs0. rewrite Hempty. cbn [app].
      destruct (Hl s0 Hs0) as (lout & Hag & Hrun). exists lout. split; [assumption|].
      rewrite <- Hrun. rewrite Hempty. cbn [app lrun fold_left lstep].
      unfold upd. rewrite (Z.eqb_sym s0 s).
      destruct (Z.eqb_spec s s0); [subst|]; reflexivity.
    + (* stream creation, the hand-over, releases *)
      assert (Hsame : forall m', 
                 let m'' := issue junk c m' in
                 queue m'' = queue m' /\ dmem m'' = dmem m' /\ out_vec m'' = out_vec m'
                 /\ pending m'' = pending m' /\ faulted m'' = faulted m').
      { intros m'. destruct c; cbn in *; try discriminate; auto. }
      specialize (Hsame (Machine rest (queue m) (dmem m) (out_vec m) (handed m) (faulted m))).
      cbn zeta in Hsame. cbn [queue dmem out_vec pending faulted] in Hsame.
      destruct Hsame as (Eq & Ed & Eo & Ep & Ef).
      constructor; rewrite ?Eq, ?Ed, ?Eo, ?Ep, ?Ef; auto;
        try (intros He; apply Hi; now apply exists_malloc_cons).
      intros s Hs0. destruct (Hl s Hs0) as (lout & Hag & Hrun). exists lout.
      split; [assumption|]. rewrite <- Hrun. rewrite !lrun_app.
      cbn [lrun fold_left].
      rewrite (lstep_other s _ c); [reflexivity|assumption|congruence].
Qed.

Lemma step_device_preserves m s0 : sim' m -> sim' (step' (Device s0) m).
Proof.
  intros Hsim. pose proof Hsim as [Hf Hp Hq Hb Ha Hi Hl].
  cbn [step]. destruct (queue m s0) as [|c q] eqn:Hq0; [assumption|].
  assert (Hsc : stream_of c = Some s0).
  { specialize (Hb s0). rewrite Hq0 in Hb. now inversion Hb. }
  assert (Hpc : placed c).
  { specialize (Hq s0). rewrite Hq0 in Hq. now inversion Hq. }
  assert (Hr0 : 0 <= s0 < N_STREAMS).
  { destruct c; cbn in Hsc, Hpc; try discriminate; inversion Hsc; subst; tauto. }
  destruct (Hl s0 Hr0) as (lout & Hag & Hrun).
  rewrite Hq0 in Hrun. cbn [app lrun fold_left] in Hrun.
  rewrite lstep_bound in Hrun by assumption.
  destruct (execute' c (dmem m s0) lout) as [[t' lout']|] eqn:He.
  2:{ exfalso. apply (final_defined s0 Hr0). rewrite <- Hrun. apply lrun_none. }
  destruct (execute_views c s0 _ _ _ _ _ Hsc Hpc Hag He) as (out' & He' & Hag' & Hothers).
  rewrite He'.
  constructor; cbn [faulted pending queue dmem out_vec]; auto.
  - intros s. unfold upd. destruct (Z.eqb_spec s s0); [subst|apply Hq].
    specialize (Hq s0). rewrite Hq0 in Hq. now inversion Hq.
  - intros s. unfold upd. destruct (Z.eqb_spec s s0); [subst|apply Hb].
    specialize (Hb s0). rewrite Hq0 in Hb. now inversion Hb.
  - intros Hex. specialize (Hi Hex s0). congruence.
  - intros s Hs. unfold upd. destruct (Z.eqb_spec s s0) as [->|Hne].
    + exists lout'. split; assumption.
    + destruct (Hl s Hs) as (lo & Hago & Hruno). exists lo. split; auto.
Qed.

Lemma step_preserves ch m : sim' m -> sim' (step' ch m).
Proof.
  intros Hsim. destruct ch as [|s0]; [|now apply step_device_preserves].
  cbn [step]. destruct (pending m) as [|c rest] eqn:Hp; [assumption|].
  now apply step_host_preserves.
Qed.

Lemma run_preserves sched : forall m, sim' m -> sim' (run' sched m).
Proof.
  induction sched as [|ch sched IH]; intros m Hsim; [assumption|].
  cbn [run fold_left]. apply IH. now apply step_preserves.
Qed.

(** A stream outside the pool never has anything queued. *)
Lemma sim_queue_range m s : sim' m -> ~ 0 <= s < N_STREAMS -> queue m s = [].
Proof.
  intros [_ _ Hq Hb _ _ _] Hs. specialize (Hq s). specialize (Hb s).
  destruct (queue m s) as [|c q]; [reflexivity|]. exfalso.
  inversion Hq as [|? ? Hpc _]; inversion Hb as [|? ? Hsc _]; subst.
  destruct c; cbn in Hsc, Hpc; try discriminate; inversion Hsc; subst; tauto.
Qed.

(** When nothing is pending and nothing is queued, every stream has
    reached its final state, and the output block holds what each
    stream left at the indices it owns. *)
Lemma sim_completed m s :
  sim' m -> completed m -> 0 <= s < N_STREAMS ->
  exists lout, final s = Some (dmem m s, lout) /\ agree s lout (out_vec m).
Proof.
  intros [_ _ _ _ _ _ Hl] [Hp Hq] Hs. destruct (Hl s Hs) as (lout & Hag & Hrun).
  rewrite Hp, Hq in Hrun. cbn in Hrun. eauto.
Qed.

End SimulationProof.

(* ================================================================= *)
(** ** Running the machine to completion *)

Section Settling.

Variables in1 in2 : list float.
Variable junk : dev_array -> Z -> list float.

Local Abbreviation step' := (step in1 in2 junk).
Local Abbreviation run' := (run in1 in2 junk).
Local Abbreviation settle' := (settle in1 in2 junk).

Lemma run_app s1 s2 m : run' (s1 ++ s2) m = run' s2 (run' s1 m).
Proof. apply fold_left_app. Qed.

Lemma run_cons ch sched m : run' (ch :: sched) m = run' sched (step' ch m).
Proof. reflexivity. Qed.

Lemma pending_issue c m : pending (issue junk c m) = pending m.
Proof. destruct c; reflexivity. Qed.

Lemma run_host_pending : forall n m,
  pending (run' (repeat Host n) m) = skipn n (pending m).
Proof.
  induction n as [|n IH]; intros m; [reflexivity|].
  cbn [repeat]. rewrite run_cons, IH. cbn [step].
  destruct (pending m) as [|c rest] eqn:Hp.
  - rewrite Hp. now rewrite !skipn_nil.
  - rewrite pending_issue. reflexivity.
Qed.

Lemma step_device_queue s m :
  let m' := step' (Device s) m in
  pending m' = pending m /\
  queue m' s = tl (queue m s) /\
  forall s', s' <> s -> queue m' s' = queue m s'.
Proof.
  cbn [step]. destruct (queue m s) as [|c q] eqn:Hq.
  - rewrite Hq. auto.
  - destruct (execute in1 in2 c (dmem m s) (out_vec m)) as [[t o]|];
      cbn [pending queue]; unfold upd; rewrite Z.eqb_refl;
      (split; [reflexivity|]; split; [reflexivity|]);
      intros s' Hne; destruct (Z.eqb_spec s' s); congruence.
Qed.

Lemma drain_stream s : forall n m,
  n = length (queue m s) ->
  let m' := run' (repeat (Device s) n) m in
  pending m' = pending m /\
  queue m' s = [] /\
  forall s', s' <> s -> queue m' s' = queue m s'.
Proof.
  induction n as [|n IH]; intros m Hn.
  - cbn. destruct (queue m s); [auto|discriminate].
  - cbn [repeat]. rewrite run_cons.
    destruct (step_device_queue s m) as (Hp & Hq & Ho).
    destruct (IH (step' (Device s) m)) as (Hp' & Hq' & Ho').
    { rewrite Hq. destruct (queue m s); cbn in *; lia. }
    cbn zeta in *. split; [congruence|]. split; [assumption|].
    intros s' Hne. rewrite Ho', Ho by assumption. reflexivity.
Qed.

(** [settle] is a run of the machine. *)
Lemma settle_is_run m : exists sched, settle' m = run' sched m.
Proof.
  unfold settle. rewrite zrange_streams. cbn [fold_left].
  set (m0 := run' (repeat Host (length (pending m))) m).
  set (m1 := run' (repeat (Device 0) (length (queue m0 0))) m0).
  set (m2 := run' (repeat (Device 1) (length (queue m1 1))) m1).
  set (m3 := run' (repeat (Device 2) (length (queue m2 2))) m2).
  exists (repeat Host (length (pending m))
          ++ repeat (Device 0) (length (queue m0 0))
          ++ repeat (Device 1) (length (queue m1 1))
          ++ repeat (Device 2) (length (queue m2 2))
          ++ repeat (Device 3) (length (queue m3 3))).
  rewrite !run_app. reflexivity.
Qed.

Lemma settle_pool_empty m s :
  0 <= s < N_STREAMS ->
  pending (settle' m) = [] /\ queue (settle' m) s = [].
Proof.
  intros Hs. unfold settle. rewrite zrange_streams. cbn [fold_left].
  set (m0 := run' (repeat Host (length (pending m))) m).
  assert (P0 : pending m0 = []).
  { unfold m0. rewrite run_host_pending. apply skipn_all. }
  destruct (drain_stream 0 _ m0 eq_refl) as (P1 & Q1 & O1). cbn zeta in *.
  set (m1 := run' (repeat (Device 0) (length (queue m0 0))) m0) in *.
  destruct (drain_stream 1 _ m1 eq_refl) as (P2 & Q2 & O2). cbn zeta in *.
  set (m2 := run' (repeat (Device 1) (length (queue m1 1))) m1) in *.
  destruct (drain_stream 2 _ m2 eq_refl) as (P3 & Q3 & O3). cbn zeta in *.
  set (m3 := run' (repeat (Device 2) (length (queue m2 2))) m2) in *.
  destruct (drain_stream 3 _ m3 eq_refl) as (P4 & Q4 & O4). cbn zeta in *.
  set (m4 := run' (repeat (Device 3) (length (queue m3 3))) m3) in *.
  split; [congruence|].
  destruct (stream_cases s Hs) as [-> | [-> | [-> | ->]]].
  - rewrite O4, O3, O2 by lia. exact Q1.
  - rewrite O4, O3 by lia. exact Q2.
  - rewrite O4 by lia. exact Q3.
  - exact Q4.
Qed.

Lemma completed_settle_id m : completed m -> settle' m = m.
Proof.
  intros [Hp Hq]. unfold settle. rewrite Hp. cbn [length repeat run fold_left].
  rewrite zrange_streams. cbn [fold_left].
  rewrite !Hq. reflexivity.
Qed.

End Settling.

(* ================================================================= *)
(** ** The calls of one chunk and of the sweep *)

Lemma chunk_calls_unfold inputLength i :
  chunk_calls inputLength i
  = [ cudaMemcpyAsync_H2D deviceInput1 0 hostInput1 (i + 0)
        (wrap_size (copySize inputLength i 0 * sizeof_float));
      cudaMemcpyAsync_H2D deviceInput2 0 hostInput2 (i + 0)
        (wrap_size (copySize inputLength i 0 * sizeof_float));
      cudaMemcpyAsync_H2D deviceInput1 1 hostInput1 (i + 128)
        (wrap_size (copySize inputLength i 1 * sizeof_float));
      cudaMemcpyAsync_H2D deviceInput2 1 hostInput2 (i + 128)
        (wrap_size (copySize inputLength i 1 * sizeof_float));
      cudaMemcpyAsync_H2D deviceInput1 2 hostInput1 (i + 256)
        (wrap_size (copySize inputLength i 2 * sizeof_float));
      cudaMemcpyAsync_H2D deviceInput2 2 hostInput2 (i + 256)
        (wrap_size (copySize inputLength i 2 * sizeof_float));
      cudaMemcpyAsync_H2D deviceInput1 3 hostInput1 (i + 384)
        (wrap_size (copySize inputLength i 3 * sizeof_float));
      cudaMemcpyAsync_H2D deviceInput2 3 hostInput2 (i + 384)
        (wrap_size (copySize inputLength i 3 * sizeof_float));
      vecAdd_launch 1 128 0 (copySize inputLength i 0);
      vecAdd_launch 1 128 1 (copySize inputLength i 1);
      vecAdd_launch 1 128 2 (copySize inputLength i 2);
      vecAdd_launch 1 128 3 (copySize inputLength i 3);
      cudaMemcpyAsync_D2H (i + 0) 0 (wrap_size (copySize inputLength i 0 * sizeof_float));
      cudaMemcpyAsync_D2H (i + 128) 1 (wrap_size (copySize inputLength i 1 * sizeof_float));
      cudaMemcpyAsync_D2H (i + 256) 2 (wrap_size (copySize inputLength i 2 * sizeof_float));
      cudaMemcpyAsync_D2H (i + 384) 3 (wrap_size (copySize inputLength i 3 * sizeof_float)) ].
Proof. reflexivity. Qed.

Lemma owner_of_segment i s idx :
  i mod 512 = 0 -> 0 <= s < N_STREAMS ->
  i + s * 128 <= idx < i + s * 128 + 128 ->
  owner idx = s.
Proof.
  unfold owner, segmentSize, N_STREAMS. intros Hi Hs Hidx.
  apply Z.mod_divide in Hi; [|lia]. destruct Hi as [m ->].
  assert (E : idx / 128 = 4 * m + s).
  { symmetry. apply (Z.div_unique idx 128 (4 * m + s) (idx - (m * 512 + s * 128))); lia. }
  rewrite E. rewrite Z.add_comm, Z.mul_comm, Z.mod_add by lia.
  apply Z.mod_small. lia.
Qed.

Lemma chunk_calls_placed inputLength i :
  i mod 512 = 0 -> Forall placed (chunk_calls inputLength i).
Proof.
  intros Hi. rewrite chunk_calls_unfold.
  repeat constructor; unfold N_STREAMS; try lia; try discriminate;
    intros idx Hidx; rewrite count_of_copySize in Hidx;
    match goal with
    | |- owner _ = ?s =>
        pose proof (copySize_bounds inputLength i s) as Hb; unfold segmentSize in Hb;
        apply (owner_of_segment i s); [assumption|unfold N_STREAMS; lia|lia]
    end.
Qed.

Lemma chunk_calls_async inputLength i :
  Forall (fun c => is_async c = true) (chunk_calls inputLength i).
Proof. rewrite chunk_calls_unfold. repeat constructor. Qed.

Lemma next_chunk_aligned i :
  i mod 512 = 0 -> int_add i (int_mul segmentSize N_STREAMS) mod 512 = 0.
Proof.
  intros Hi. rewrite stride_value. unfold int_add, wrap_int.
  apply Z.mod_divide in Hi; [|lia]. destruct Hi as [m ->].
  apply Z.mod_divide; [lia|].
  pose proof (Z.div_mod (m * 512 + 512 + 2 ^ 31) (2 ^ 32) ltac:(lia)) as D.
  exists (m + 1 + 2 ^ 22 - 2 ^ 23 * ((m * 512 + 512 + 2 ^ 31) / 2 ^ 32) - 2 ^ 22).
  lia.
Qed.

Lemma sweep_placed inputLength : forall fuel i,
  i mod 512 = 0 -> Forall placed (fst (sweep fuel inputLength i)).
Proof.
  induction fuel as [|fuel IH]; intros i Hi; cbn [sweep].
  - destruct (i <? inputLength); constructor.
  - destruct (i <? inputLength); [|constructor]. cbn [fst].
    apply Forall_app. split; [now apply chunk_calls_placed|].
    apply IH. now apply next_chunk_aligned.
Qed.

Lemma sweep_async inputLength : forall fuel i,
  Forall (fun c => is_async c = true) (fst (sweep fuel inputLength i)).
Proof.
  induction fuel as [|fuel IH]; intros i; cbn [sweep].
  - destruct (i <? inputLength); constructor.
  - destruct (i <? inputLength); [|constructor]. cbn [fst].
    apply Forall_app. split; [apply chunk_calls_async|apply IH].
Qed.

Lemma async_not_malloc c : is_async c = true -> is_malloc c = false.
Proof. destruct c; cbn; congruence. Qed.

Lemma allocs_first_app l1 l2 :
  Forall (fun c => is_async c = false) l1 ->
  Forall (fun c => is_malloc c = false) l2 ->
  allocs_first (l1 ++ l2).
Proof.
  intros H1 H2. induction l1 as [|c l1 IH]; cbn [app allocs_first].
  - induction l2 as [|c l2 IH2]; cbn; [exact I|].
    inversion H2; subst. split; auto.
  - inversion H1; subst. split; [congruence|auto].
Qed.

Lemma program_placed fuel inputLength : Forall placed (program fuel inputLength).
Proof.
  unfold program.
  apply Forall_app. split; [repeat constructor|].
  apply Forall_app. split; [repeat constructor|].
  apply Forall_app. split; [now apply sweep_placed|].
  repeat constructor.
Qed.

Lemma program_allocs_first fuel inputLength : allocs_first (program fuel inputLength).
Proof.
  unfold program. rewrite app_assoc. apply allocs_first_app.
  - repeat constructor.
  - apply Forall_app. split.
    + eapply Forall_impl; [|apply sweep_async]. apply async_not_malloc.
    + repeat constructor.
Qed.

(* ================================================================= *)
(** ** One stream in isolation computes its share of the sums *)

Lemma copy_floats_ok src so dst d0 n :
  0 <= n ->
  (0 < n -> 0 <= so /\ so + n <= zlength src /\ 0 <= d0 /\ d0 + n <= zlength dst) ->
  exists r,
    copy_floats src so dst d0 n = Some r /\
    length r = length dst /\
    forall idx, 0 <= idx ->
      get r idx = if (d0 <=? idx) && (idx <? d0 + n)
                  then get src (idx - d0 + so) else get dst idx.
Proof.
  intros Hn Hb. destruct (Z.eq_dec n 0) as [->|Hne].
  - exists dst. split; [apply copy_floats_zero|]. split; [reflexivity|].
    intros idx Hidx.
    destruct (Z.leb_spec d0 idx), (Z.ltb_spec idx (d0 + 0)); cbn; try reflexivity; lia.
  - destruct Hb as (H1 & H2 & H3 & H4); [lia|].
    now apply copy_floats_in_bounds.
Qed.

Lemma length_fresh_block n junk : 0 <= n -> zlength (fresh_block n junk) = n.
Proof.
  intros Hn. unfold zlength, fresh_block.
  rewrite length_app, length_firstn, repeat_length. lia.
Qed.

Lemma owner_segment_inv i s idx :
  i mod 512 = 0 -> i <= idx < i + 512 -> owner idx = s ->
  0 <= s < N_STREAMS /\ i + s * 128 <= idx < i + s * 128 + 128.
Proof.
  intros Hi Hidx Ho.
  assert (Hq : 0 <= (idx - i) / 128 < 4).
  { split; [apply Z.div_pos; lia|apply Z.div_lt_upper_bound; lia]. }
  pose proof (Z.div_mod (idx - i) 128 ltac:(lia)) as D.
  pose proof (Z.mod_pos_bound (idx - i) 128 ltac:(lia)) as B.
  assert (E : owner idx = (idx - i) / 128).
  { apply (owner_of_segment i); [assumption|unfold N_STREAMS; lia|lia]. }
  rewrite E in Ho. subst s. unfold N_STREAMS. lia.
Qed.

Section Stream.

Variables in1 in2 : list float.
Variable junk : dev_array -> Z -> list float.
Variable inputLength : Z.
Hypothesis length_range : 0 <= inputLength <= INT_MAX - 511.
Hypothesis length_in1 : zlength in1 = inputLength.
Hypothesis length_in2 : zlength in2 = inputLength.

Local Abbreviation lrun' := (lrun in1 in2 junk).
Local Abbreviation lstep' := (lstep in1 in2 junk).
Local Abbreviation stream_ok' := (stream_ok in1 in2 inputLength).

Lemma lstep_skip s st c : concerns s c = false -> lstep' s st c = st.
Proof.
  intros H. destruct st as [[t out]|]; [|reflexivity].
  destruct c; cbn in *; try rewrite H; reflexivity.
Qed.

Lemma lrun_filter s l : forall st,
  lrun' s l st = lrun' s (filter (concerns s) l) st.
Proof.
  induction l as [|c l IH]; intros st; [reflexivity|].
  cbn [filter]. destruct (concerns s c) eqn:E.
  - cbn [lrun fold_left]. apply IH.
  - cbn [lrun fold_left]. rewrite lstep_skip by assumption. apply IH.
Qed.

Lemma chunk_concerns i s :
  0 <= s < N_STREAMS ->
  filter (concerns s) (chunk_calls inputLength i)
  = [ cudaMemcpyAsync_H2D deviceInput1 s hostInput1 (i + s * 128)
        (wrap_size (copySize inputLength i s * sizeof_float));
      cudaMemcpyAsync_H2D deviceInput2 s hostInput2 (i + s * 128)
        (wrap_size (copySize inputLength i s * sizeof_float));
      vecAdd_launch 1 128 s (copySize inputLength i s);
      cudaMemcpyAsync_D2H (i + s * 128) s
        (wrap_size (copySize inputLength i s * sizeof_float)) ].
Proof.
  intros Hs. rewrite chunk_calls_unfold.
  destruct (stream_cases s Hs) as [-> | [-> | [-> | ->]]]; reflexivity.
Qed.

(** The four operations of one segment, one after the other. *)
Lemma segment_run i s t out :
  0 <= i < inputLength -> 0 <= s < N_STREAMS ->
  zlength (dIn1 t) = segmentSize -> zlength (dIn2 t) = segmentSize ->
  zlength (dOut t) = segmentSize -> zlength out = inputLength ->
  exists t' out',
    lrun' s (chunk_calls inputLength i) (Some (t, out)) = Some (t', out') /\
    zlength (dIn1 t') = segmentSize /\ zlength (dIn2 t') = segmentSize /\
    zlength (dOut t') = segmentSize /\ zlength out' = inputLength /\
    forall idx, 0 <= idx ->
      get out' idx
      = if (i + s * 128 <=? idx) && (idx <? i + s * 128 + copySize inputLength i s)
        then fadd (get in1 idx) (get in2 idx) else get out idx.
Proof.
  intros Hi Hs H1 H2 H3 Ho.
  rewrite lrun_filter, chunk_concerns by assumption.
  pose proof (copySize_clamp inputLength i s ltac:(lia)
                ltac:(unfold INT_MAX in *; lia) Hs) as Hn.
  remember (copySize inputLength i s) as n eqn:En.
  assert (Hcount : wrap_size (n * sizeof_float) / sizeof_float = n)
    by (subst n; apply count_of_copySize).
  unfold segmentSize, N_STREAMS in *.
  assert (Hn0 : 0 <= n <= 128) by lia.
  assert (Hpos : 0 < n -> 0 <= i + s * 128 /\ i + s * 128 + n <= inputLength) by lia.
  destruct t as [d1 d2 d3]. cbn [dIn1 dIn2 dOut] in *.
  cbn [lrun fold_left].
  rewrite lstep_bound by reflexivity. cbn [execute host_block get_buf set_buf dIn1 dIn2 dOut].
  rewrite Hcount.
  destruct (copy_floats_ok in1 (i + s * 128) d1 0 n) as (b1 & E1 & L1 & G1);
    [lia|lia|].
  rewrite E1.
  rewrite lstep_bound by reflexivity. cbn [execute host_block get_buf set_buf dIn1 dIn2 dOut].
  rewrite Hcount.
  destruct (copy_floats_ok in2 (i + s * 128) d2 0 n) as (b2 & E2 & L2 & G2);
    [lia|lia|].
  rewrite E2.
  rewrite lstep_bound by reflexivity. cbn [execute host_block get_buf set_buf dIn1 dIn2 dOut].
  destruct (launch_spec 1 128 b1 b2 d3 n) as (o3 & E3 & L3 & G3);
    try (unfold INT_MAX, zlength in *; lia).
  rewrite E3.
  rewrite lstep_bound by reflexivity. cbn [execute host_block get_buf set_buf dIn1 dIn2 dOut].
  rewrite Hcount.
  destruct (copy_floats_ok o3 0 out (i + s * 128) n) as (o4 & E4 & L4 & G4);
    [lia|unfold zlength in *; lia|].
  rewrite E4.
  exists (Triple b1 b2 o3), o4. split; [reflexivity|]. cbn [dIn1 dIn2 dOut].
  unfold zlength in *.
  repeat (split; [lia|]).
  intros idx Hidx. rewrite (G4 idx Hidx).
  destruct (Z.leb_spec (i + s * 128) idx), (Z.ltb_spec idx (i + s * 128 + n));
    cbn [andb]; try reflexivity.
  rewrite G3 by lia.
  destruct (Z.ltb_spec (idx - (i + s * 128) + 0) n); [|lia].
  rewrite G1, G2 by lia.
  destruct (Z.leb_spec 0 (idx - (i + s * 128) + 0)); [|lia].
  destruct (Z.ltb_spec (idx - (i + s * 128) + 0) (0 + n)); [|lia].
  cbn [andb]. f_equal; f_equal; lia.
Qed.

(** One chunk advances the share of stream [s] by one segment. *)
Lemma chunk_local i s st :
  0 <= i < inputLength -> i mod 512 = 0 -> 0 <= s < N_STREAMS ->
  stream_ok' s i st ->
  stream_ok' s (i + 512) (lrun' s (chunk_calls inputLength i) st).
Proof.
  intros Hi Ha Hs (t & out & -> & H1 & H2 & H3 & Ho & Hsum).
  destruct (segment_run i s t out Hi Hs H1 H2 H3 Ho)
    as (t' & out' & E & H1' & H2' & H3' & Ho' & Hget).
  exists t', out'. repeat (split; [assumption|]).
  intros idx Hidx HidxL Hown. unfold summed. rewrite Hget by lia.
  pose proof (copySize_clamp inputLength i s ltac:(lia)
                ltac:(unfold INT_MAX in *; lia) Hs) as Hn.
  unfold segmentSize in Hn.
  destruct (Z.lt_ge_cases idx i) as [Hlt|Hge].
  - destruct (Z.leb_spec (i + s * 128) idx); [unfold N_STREAMS in *; lia|].
    cbn [andb]. apply Hsum; [lia|assumption|assumption].
  - destruct (owner_segment_inv i s idx Ha ltac:(lia) Hown) as [_ Hseg].
    destruct (Z.leb_spec (i + s * 128) idx); [|lia].
    destruct (Z.ltb_spec idx (i + s * 128 + copySize inputLength i s)); [reflexivity|lia].
Qed.

Lemma sweep_local s : forall fuel i st,
  0 <= i -> i mod 512 = 0 -> 0 <= s < N_STREAMS ->
  (chunks (inputLength - i) <= fuel)%nat ->
  stream_ok' s i st ->
  stream_ok' s inputLength (lrun' s (fst (sweep fuel inputLength i)) st).
Proof.
  induction fuel as [|fuel IH]; intros i st Hi Ha Hs Hf Hok.
  - cbn [sweep]. destruct (Z.ltb_spec i inputLength).
    + rewrite (chunks_step inputLength i) in Hf by lia. lia.
    + cbn. destruct Hok as (t & out & -> & H1 & H2 & H3 & Ho & Hsum).
      exists t, out. split; [reflexivity|]. repeat (split; [assumption|]).
      intros idx Hidx HidxL. apply Hsum; lia.
  - cbn [sweep]. destruct (Z.ltb_spec i inputLength).
    + cbn [fst]. rewrite lrun_app.
      rewrite (next_chunk_exact inputLength) by lia.
      apply IH; try lia.
      * pose proof (next_chunk_aligned i Ha) as A.
        rewrite (next_chunk_exact inputLength) in A by lia. exact A.
      * rewrite (chunks_step inputLength i) in Hf by lia. lia.
      * apply chunk_local; assumption || lia.
    + cbn. destruct Hok as (t & out & -> & H1 & H2 & H3 & Ho & Hsum).
      exists t, out. split; [reflexivity|]. repeat (split; [assumption|]).
      intros idx Hidx HidxL. apply Hsum; lia.
Qed.

Lemma allocate_local s out :
  0 <= s < N_STREAMS ->
  lrun' s (create_calls ++ allocate_calls) (Some (Triple [] [] [], out))
  = Some (Triple (fresh_block 128 (junk deviceInput1 s))
                 (fresh_block 128 (junk deviceInput2 s))
                 (fresh_block 128 (junk deviceOutput s)), out).
Proof.
  intros Hs. rewrite lrun_filter.
  destruct (stream_cases s Hs) as [-> | [-> | [-> | ->]]]; reflexivity.
Qed.

Lemma epilogue_local s st :
  lrun' s (epilogue_calls inputLength) st = st.
Proof. rewrite lrun_filter. reflexivity. Qed.

(** Stream [s], taken in isolation over the whole program, ends with the
    sums at every index it owns. *)
Lemma program_local fuel s junk_out :
  0 <= s < N_STREAMS ->
  (chunks inputLength <= fuel)%nat ->
  stream_ok' s inputLength
    (lrun' s (program fuel inputLength)
           (Some (Triple [] [] [], fresh_block inputLength junk_out))).
Proof.
  intros Hs Hf. unfold program.
  rewrite app_assoc, lrun_app, allocate_local by assumption.
  rewrite lrun_app, epilogue_local.
  apply sweep_local; try lia; try reflexivity.
  - now rewrite Z.sub_0_r.
  - eexists _, _. split; [reflexivity|]. cbn [dIn1 dIn2 dOut]. unfold segmentSize.
    rewrite !length_fresh_block by lia.
    repeat (split; [reflexivity|]). intros idx Hidx. lia.
Qed.

End Stream.

(* ================================================================= *)
(** ** The pipeline under every interleaving *)

(** Past [INT_MAX - 511] the addition [i += 512] wraps before [i] reaches
    [inputLength]: the loop condition holds at every multiple of 512 that
    is an [int], and the loop never ends. *)
Lemma sweep_never_ends inputLength : 
  INT_MAX - 511 < inputLength ->
  forall fuel i, in_int i -> i mod 512 = 0 ->
  snd (sweep fuel inputLength i) = false.
Proof.
  intros HL. induction fuel as [|fuel IH]; intros i Hi Ha;
    assert (Hlt : i < inputLength)
      by (unfold in_int, INT_MIN, INT_MAX in *;
          apply Z.mod_divide in Ha; [|lia]; destruct Ha as [m ->]; lia);
    cbn [sweep]; destruct (Z.ltb_spec i inputLength); try lia.
  - reflexivity.
  - cbn [snd]. apply IH.
    + apply wrap_int_range.
    + now apply next_chunk_aligned.
Qed.

Lemma sweep_ends_only_in_range fuel inputLength :
  snd (sweep fuel inputLength 0) = true -> inputLength <= INT_MAX - 511.
Proof.
  intros H. destruct (Z.le_gt_cases inputLength (INT_MAX - 511)) as [|Hgt]; [assumption|].
  rewrite (sweep_never_ends inputLength) in H; [discriminate|lia| |reflexivity].
  unfold in_int, INT_MIN, INT_MAX. lia.
Qed.

Lemma program_fuel_irrelevant fuel inputLength :
  0 <= inputLength ->
  snd (sweep fuel inputLength 0) = true ->
  program fuel inputLength = program (chunks inputLength) inputLength.
Proof.
  intros H0 H. unfold program.
  rewrite (sweep_fuel_irrelevant inputLength fuel (chunks inputLength) 0); auto.
  apply sweep_ends; try lia.
  - now apply sweep_ends_only_in_range in H.
  - rewrite Z.sub_0_r. lia.
Qed.

Lemma owner_range idx : 0 <= owner idx < N_STREAMS.
Proof. unfold owner, N_STREAMS. apply Z.mod_pos_bound. lia. Qed.

(** Whatever the interleaving of the host and the streams, once the
    program has made its calls and the queues have run dry, the output
    block holds the element-wise sums. *)
Lemma pipeline_output in1 in2 junk junk_out inputLength fuel sched :
  0 <= inputLength <= INT_MAX - 511 ->
  zlength in1 = inputLength -> zlength in2 = inputLength ->
  (chunks inputLength <= fuel)%nat ->
  let m := settle in1 in2 junk
             (run in1 in2 junk sched (boot junk_out (program fuel inputLength) inputLength)) in
  completed m /\ faulted m = false /\ zlength (out_vec m) = inputLength /\
  forall idx, 0 <= idx < inputLength -> summed in1 in2 (out_vec m) idx.
Proof.
  intros HL H1 H2 Hf m.
  set (final := fun s => lrun in1 in2 junk s (program fuel inputLength)
                           (Some (Triple [] [] [], fresh_block inputLength junk_out))).
  assert (Hlocal : forall s, 0 <= s < N_STREAMS ->
                     stream_ok in1 in2 inputLength s inputLength (final s)).
  { intros s Hs. apply program_local; assumption. }
  assert (Hdef : forall s, 0 <= s < N_STREAMS -> final s <> None).
  { intros s Hs. destruct (Hlocal s Hs) as (t & out & E & _). congruence. }
  assert (Hboot : sim in1 in2 junk final
                      (boot junk_out (program fuel inputLength) inputLength)).
  { constructor; cbn [boot faulted pending queue dmem out_vec]; auto.
    - apply program_placed.
    - apply program_allocs_first.
    - intros s Hs. exists (fresh_block inputLength junk_out).
      split; [apply agree_refl|reflexivity]. }
  assert (Hsim : sim in1 in2 junk final m).
  { unfold m. destruct (settle_is_run in1 in2 junk
                 (run in1 in2 junk sched (boot junk_out (program fuel inputLength) inputLength)))
      as (sched' & ->).
    apply (run_preserves _ _ _ _ Hdef). apply (run_preserves _ _ _ _ Hdef). exact Hboot. }
  assert (Hdone : completed m).
  { split.
    - apply (settle_pool_empty in1 in2 junk _ 0). unfold N_STREAMS. lia.
    - intros s. destruct (Z.le_gt_cases 0 s) as [Hs0|Hs0];
        [destruct (Z.lt_ge_cases s N_STREAMS) as [Hs1|Hs1]|].
      + apply (settle_pool_empty in1 in2 junk). lia.
      + apply (sim_queue_range in1 in2 junk final m s Hsim). lia.
      + apply (sim_queue_range in1 in2 junk final m s Hsim). lia. }
  clearbody m. clear Hboot. clearbody final.
  split; [exact Hdone|]. split; [apply Hsim|].
  split.
  - destruct (sim_completed in1 in2 junk final m 0 Hsim Hdone ltac:(unfold N_STREAMS; lia))
      as (lout & E & [Hlen _]).
    destruct (Hlocal 0 ltac:(unfold N_STREAMS; lia)) as (t & out & E' & _ & _ & _ & Ho & _).
    rewrite E in E'. injection E' as _ Eo. subst out. unfold zlength in *. lia.
  - intros idx Hidx.
    destruct (sim_completed in1 in2 junk final m (owner idx) Hsim Hdone (owner_range idx))
      as (lout & E & [Hlen Hag]).
    destruct (Hlocal (owner idx) (owner_range idx)) as (t & out & E' & _ & _ & _ & Ho & Hsum).
    rewrite E in E'. injection E' as _ Eo. subst out.
    unfold summed in *. rewrite <- Hag by (lia || reflexivity).
    apply Hsum; lia || reflexivity.
Qed.

(* ================================================================= *)
(** ** The properties of the specification *)

(** C1 (as amended).  For every [inputLength] from 0 to [INT_MAX - 511] and
    two input vectors of that length, the program returns from [main] when
    every call succeeds, and under every interleaving of the host with the
    streams, once all calls are made and every queue has run dry, no
    operation has accessed memory out of bounds, the output vector has
    [inputLength] elements, and element [idx] is exactly
    [input1[idx] + input2[idx]] for every [idx] in [0, inputLength).  The
    same holds of any machine state in which nothing is pending or queued. *)
Theorem pipeline_correct in1 in2 junk junk_out inputLength fuel :
  0 <= inputLength <= INT_MAX - 511 ->
  zlength in1 = inputLength -> zlength in2 = inputLength ->
  (chunks inputLength <= fuel)%nat ->
  exists tr,
    run_main fuel all_succeed inputLength = Returned 0 tr /\
    (forall sched,
       let m := settle in1 in2 junk (run in1 in2 junk sched (boot junk_out tr inputLength)) in
       completed m /\ faulted m = false /\ zlength (out_vec m) = inputLength /\
       forall idx, 0 <= idx < inputLength ->
         get (out_vec m) idx = fadd (get in1 idx) (get in2 idx)) /\
    (forall sched,
       let m := run in1 in2 junk sched (boot junk_out tr inputLength) in
       completed m ->
       faulted m = false /\ zlength (out_vec m) = inputLength /\
       forall idx, 0 <= idx < inputLength ->
         get (out_vec m) idx = fadd (get in1 idx) (get in2 idx)).
Proof.
  intros HL H1 H2 Hf. exists (program fuel inputLength).
  split; [|split].
  - apply run_main_all_succeed. apply sweep_ends; try lia.
    now rewrite Z.sub_0_r.
  - intros sched. apply pipeline_output; assumption.
  - intros sched m Hdone.
    pose proof (pipeline_output in1 in2 junk junk_out inputLength fuel sched HL H1 H2 Hf)
      as P. cbn zeta in P. fold m in P.
    rewrite (completed_settle_id in1 in2 junk m Hdone) in P.
    destruct P as (_ & P). exact P.
Qed.

Lemma pipeline_correct_witness :
  0 <= 1 <= INT_MAX - 511 /\
  zlength [one] = 1 /\ zlength [two] = 1 /\ (chunks 1 <= 1)%nat /\
  exists tr,
    run_main 1 all_succeed 1 = Returned 0 tr /\
    (forall sched,
       let m := settle [one] [two] no_junk (run [one] [two] no_junk sched (boot [] tr 1)) in
       completed m /\ faulted m = false /\ zlength (out_vec m) = 1 /\
       forall idx, 0 <= idx < 1 ->
         get (out_vec m) idx = fadd (get [one] idx) (get [two] idx)) /\
    (forall sched,
       let m := run [one] [two] no_junk sched (boot [] tr 1) in
       completed m ->
       faulted m = false /\ zlength (out_vec m) = 1 /\
       forall idx, 0 <= idx < 1 ->
         get (out_vec m) idx = fadd (get [one] idx) (get [two] idx)).
Proof.
  assert (R : 0 <= 1 <= INT_MAX - 511) by (unfold INT_MAX; lia).
  assert (F : (chunks 1 <= 1)%nat) by (vm_compute; lia).
  split; [exact R|]. split; [reflexivity|]. split; [reflexivity|]. split; [exact F|].
  exact (pipeline_correct [one] [two] no_junk [] 1 1 R eq_refl eq_refl F).
Defined.

(** C1 as stated fails at [inputLength = INT_MAX = 2147483647]: [i] reaches
    2147483136, which is below [inputLength], and [i += 512] wraps to
    [INT_MIN]; the scheduler loop never ends, so [main] never returns and
    the pipeline never completes, whatever the fuel and whatever the calls
    return. *)
Lemma pipeline_overflow :
  ~ exists fuel env a tr, run_main fuel env 2147483647 = Returned a tr.
Proof.
  intros (fuel & env & a & tr & H).
  apply run_main_returned in H. destruct H as (_ & H & _).
  apply sweep_ends_only_in_range in H. unfold INT_MAX in H. lia.
Qed.

(** C2.  In a launch of the program (grid [d = (segmentSize-1)/BLOCK_SIZE + 1],
    blocks of [BLOCK_SIZE] threads, buffers of [segmentSize] floats, and a
    length [len] between 0 and [segmentSize]) the worker with global index
    [idx] writes [in1[idx] + in2[idx]] to [out[idx]] when [idx < len] and
    writes nothing otherwise, and never accesses a buffer out of bounds;
    whatever the order in which the workers run, the launch as a whole
    faults nowhere, leaves the sums in the first [len] elements of [out] and
    every other element as it was. *)
Theorem vecAdd_worker in1 in2 out len b t :
  zlength in1 = segmentSize -> zlength in2 = segmentSize ->
  zlength out = segmentSize ->
  0 <= len <= segmentSize ->
  In (b, t) (grid_threads (int_add (int_div (int_sub segmentSize 1) BLOCK_SIZE) 1)
                          BLOCK_SIZE) ->
  let idx := b * BLOCK_SIZE + t in
  vecAdd in1 in2 out len b BLOCK_SIZE t
  = Some (if idx <? len
          then poke out (Z.to_nat idx) (fadd (get in1 idx) (get in2 idx))
          else out)
  /\
  forall order,
    Permutation order
      (grid_threads (int_add (int_div (int_sub segmentSize 1) BLOCK_SIZE) 1) BLOCK_SIZE) ->
    exists out',
      run_threads order BLOCK_SIZE in1 in2 len out = Some out' /\
      length out' = length out /\
      forall j, 0 <= j ->
        get out' j = if j <? len then fadd (get in1 j) (get in2 j) else get out j.
Proof.
  intros H1 H2 H3 Hlen Hin idx. rewrite grid_value in *.
  unfold segmentSize, BLOCK_SIZE in *. split.
  - apply in_grid_threads in Hin. apply vecAdd_thread; unfold INT_MAX; lia.
  - intros order P.
    assert (Hok : Forall (thread_ok 128) order).
    { eapply Permutation_Forall; [apply Permutation_sym; exact P|].
      apply grid_threads_ok. unfold INT_MAX. lia. }
    destruct (run_threads_spec in1 in2 len 128 order out Hok)
      as (out' & E & Hl & Hget); try lia.
    exists out'. split; [exact E|]. split; [exact Hl|].
    intros j Hj. rewrite (Hget j Hj), (covers_permutation _ _ _ _ P).
    destruct (Z.ltb_spec j len); [|reflexivity].
    rewrite covers_grid by lia. reflexivity.
Qed.

Lemma vecAdd_worker_witness :
  zlength (repeat one 128) = segmentSize /\
  zlength (repeat two 128) = segmentSize /\
  zlength (repeat fzero 128) = segmentSize /\
  0 <= 1 <= segmentSize /\
  In (0, 5) (grid_threads (int_add (int_div (int_sub segmentSize 1) BLOCK_SIZE) 1)
                          BLOCK_SIZE) /\
  (vecAdd (repeat one 128) (repeat two 128) (repeat fzero 128) 1 0 BLOCK_SIZE 5
   = Some (if 0 * BLOCK_SIZE + 5 <? 1
           then poke (repeat fzero 128) (Z.to_nat (0 * BLOCK_SIZE + 5))
                     (fadd (get (repeat one 128) (0 * BLOCK_SIZE + 5))
                           (get (repeat two 128) (0 * BLOCK_SIZE + 5)))
           else repeat fzero 128)
   /\
   forall order,
     Permutation order
       (grid_threads (int_add (int_div (int_sub segmentSize 1) BLOCK_SIZE) 1) BLOCK_SIZE) ->
     exists out',
       run_threads order BLOCK_SIZE (repeat one 128) (repeat two 128) 1
                   (repeat fzero 128) = Some out' /\
       length out' = length (repeat fzero 128) /\
       forall j, 0 <= j ->
         get out' j = if j <? 1
                      then fadd (get (repeat one 128) j) (get (repeat two 128) j)
                      else get (repeat fzero 128) j).
Proof.
  assert (I : In (0, 5) (grid_threads
                           (int_add (int_div (int_sub segmentSize 1) BLOCK_SIZE) 1)
                           BLOCK_SIZE)).
  { apply in_grid_threads. vm_compute. repeat split; congruence. }
  assert (R : 0 <= 1 <= segmentSize) by (unfold segmentSize; lia).
  split; [reflexivity|]. split; [reflexivity|]. split; [reflexivity|].
  split; [exact R|]. split; [exact I|].
  exact (vecAdd_worker (repeat one 128) (repeat two 128) (repeat fzero 128) 1 0 5
                       eq_refl eq_refl eq_refl R I).
Defined.

(* ----------------------------------------------------------------- *)
(** *** Segment lengths over the sweep *)

Lemma total_app f l1 l2 : total f (l1 ++ l2) = total f l1 + total f l2.
Proof.
  unfold total. induction l1 as [|c l1 IH]; cbn [app fold_right]; lia.
Qed.

Lemma chunk_total inputLength i :
  0 <= i < inputLength -> inputLength <= INT_MAX ->
  copySize inputLength i 0 + copySize inputLength i 1
  + copySize inputLength i 2 + copySize inputLength i 3
  = Z.min 512 (inputLength - i).
Proof.
  intros Hi HL.
  rewrite !copySize_clamp by (unfold N_STREAMS; lia).
  unfold segmentSize. lia.
Qed.

Lemma chunk_launch_total inputLength i :
  total launch_len (chunk_calls inputLength i)
  = copySize inputLength i 0 + copySize inputLength i 1
    + copySize inputLength i 2 + copySize inputLength i 3.
Proof.
  rewrite chunk_calls_unfold. cbn [total fold_right launch_len]. lia.
Qed.

Lemma chunk_copy_out_total inputLength i :
  total copy_out_len (chunk_calls inputLength i)
  = copySize inputLength i 0 + copySize inputLength i 1
    + copySize inputLength i 2 + copySize inputLength i 3.
Proof.
  rewrite chunk_calls_unfold. cbn [total fold_right copy_out_len].
  rewrite !count_of_copySize. lia.
Qed.

Lemma chunk_copy_in_total p inputLength i :
  p <> hostOutput ->
  total (copy_in_len p) (chunk_calls inputLength i)
  = copySize inputLength i 0 + copySize inputLength i 1
    + copySize inputLength i 2 + copySize inputLength i 3.
Proof.
  intros Hp. rewrite chunk_calls_unfold.
  destruct p; [| |congruence]; cbn [total fold_right copy_in_len];
    rewrite !count_of_copySize; lia.
Qed.

Lemma sweep_total f inputLength :
  (forall i, total f (chunk_calls inputLength i)
             = copySize inputLength i 0 + copySize inputLength i 1
               + copySize inputLength i 2 + copySize inputLength i 3) ->
  inputLength <= INT_MAX - 511 ->
  forall fuel i, 0 <= i ->
    (chunks (inputLength - i) <= fuel)%nat ->
    total f (fst (sweep fuel inputLength i)) = Z.max 0 (inputLength - i).
Proof.
  intros Hf HL. induction fuel as [|fuel IH]; intros i Hi Hfuel; cbn [sweep].
  - destruct (Z.ltb_spec i inputLength); [|cbn; lia].
    rewrite (chunks_step inputLength i) in Hfuel by lia. lia.
  - destruct (Z.ltb_spec i inputLength); [|cbn; lia].
    cbn [fst]. rewrite total_app, Hf, chunk_total by (unfold INT_MAX in *; lia).
    rewrite (next_chunk_exact inputLength) by lia.
    rewrite IH; [lia|lia|].
    rewrite (chunks_step inputLength i) in Hfuel by lia. lia.
Qed.

Lemma program_total f fuel inputLength :
  (forall i, total f (chunk_calls inputLength i)
             = copySize inputLength i 0 + copySize inputLength i 1
               + copySize inputLength i 2 + copySize inputLength i 3) ->
  total f (create_calls ++ allocate_calls) = 0 ->
  total f (epilogue_calls inputLength) = 0 ->
  0 <= inputLength <= INT_MAX - 511 ->
  (chunks inputLength <= fuel)%nat ->
  total f (program fuel inputLength) = inputLength.
Proof.
  intros Hf H1 H2 HL Hfuel. unfold program.
  rewrite app_assoc, (total_app f (create_calls ++ allocate_calls)), H1.
  rewrite total_app, H2.
  rewrite (sweep_total f inputLength Hf); try lia.
  now rewrite Z.sub_0_r.
Qed.

Lemma chunk_calls_clamped inputLength i :
  0 <= i < inputLength -> inputLength <= INT_MAX ->
  Forall (clamped inputLength) (chunk_calls inputLength i).
Proof.
  intros Hi HL. rewrite chunk_calls_unfold.
  repeat constructor; cbn [clamped]; rewrite count_of_copySize;
    rewrite copySize_clamp by (unfold N_STREAMS; lia); reflexivity.
Qed.

Lemma sweep_clamped inputLength :
  inputLength <= INT_MAX - 511 ->
  forall fuel i, 0 <= i -> Forall (clamped inputLength) (fst (sweep fuel inputLength i)).
Proof.
  intros HL. induction fuel as [|fuel IH]; intros i Hi; cbn [sweep].
  - destruct (i <? inputLength); constructor.
  - destruct (Z.ltb_spec i inputLength); [|constructor]. cbn [fst].
    apply Forall_app. split.
    + apply chunk_calls_clamped; unfold INT_MAX in *; lia.
    + rewrite (next_chunk_exact inputLength) by lia. apply IH. lia.
Qed.

Lemma set_get_buf a t : set_buf a (get_buf a t) t = t.
Proof. destruct a, t; reflexivity. Qed.

Lemma launch_nothing grid block in1 in2 out :
  grid * block <= INT_MAX ->
  launch grid block in1 in2 out 0 = Some out.
Proof.
  intros Hg. unfold launch.
  destruct (run_threads_spec in1 in2 0 block (grid_threads grid block) out)
    as (out' & E & Hl & Hget);
    try apply zlength_nonneg; [now apply grid_threads_ok|].
  rewrite E. f_equal. apply get_ext; [assumption|].
  intros idx Hidx. rewrite (Hget idx Hidx).
  destruct (Z.ltb_spec idx 0); [lia|reflexivity].
Qed.

Lemma chunk_calls_noop inputLength i :
  Forall noop_when_empty (chunk_calls inputLength i).
Proof.
  rewrite chunk_calls_unfold.
  repeat constructor; unfold noop_when_empty; cbn [zero_length];
    intros Hz in1 in2 t out; apply Z.eqb_eq in Hz; cbn [execute]; rewrite Hz.
  all: try (change (0 / sizeof_float) with 0; rewrite copy_floats_zero;
            try rewrite set_get_buf; reflexivity).
  all: rewrite launch_nothing by (unfold INT_MAX; lia);
       destruct t; reflexivity.
Qed.

Lemma sweep_noop inputLength : forall fuel i,
  Forall noop_when_empty (fst (sweep fuel inputLength i)).
Proof.
  induction fuel as [|fuel IH]; intros i; cbn [sweep].
  - destruct (i <? inputLength); constructor.
  - destruct (i <? inputLength); [|constructor]. cbn [fst].
    apply Forall_app. split; [apply chunk_calls_noop|apply IH].
Qed.

Lemma program_noop fuel inputLength :
  Forall noop_when_empty (program fuel inputLength).
Proof.
  unfold program.
  apply Forall_app. split; [repeat constructor; discriminate|].
  apply Forall_app. split; [repeat constructor; discriminate|].
  apply Forall_app. split; [apply sweep_noop|].
  repeat constructor; discriminate.
Qed.

Lemma program_clamped fuel inputLength :
  inputLength <= INT_MAX - 511 ->
  Forall (clamped inputLength) (program fuel inputLength).
Proof.
  intros HL. unfold program.
  apply Forall_app. split; [repeat constructor|].
  apply Forall_app. split; [repeat constructor|].
  apply Forall_app. split; [apply sweep_clamped; lia|].
  repeat constructor.
Qed.

(** C3 (as amended).  For every [inputLength] from 0 to [INT_MAX - 511] the
    program, when every call succeeds, returns after one full sweep in which
    the segment lengths of the launches add up to [inputLength], and so do
    the lengths of the copies out and of the copies in of each input vector;
    every copy has the length [clamp(segmentSize, 0, inputLength - offset)]
    of its offset; and every call of length 0 is made and executes as a
    no-op: it faults on no state and changes nothing. *)
Theorem sweep_covers_input inputLength fuel :
  0 <= inputLength <= INT_MAX - 511 ->
  (chunks inputLength <= fuel)%nat ->
  exists tr,
    run_main fuel all_succeed inputLength = Returned 0 tr /\
    total launch_len tr = inputLength /\
    total copy_out_len tr = inputLength /\
    total (copy_in_len hostInput1) tr = inputLength /\
    total (copy_in_len hostInput2) tr = inputLength /\
    Forall (clamped inputLength) tr /\
    Forall noop_when_empty tr.
Proof.
  intros HL Hf. exists (program fuel inputLength).
  split.
  { apply run_main_all_succeed. apply sweep_ends; try lia. now rewrite Z.sub_0_r. }
  split; [apply program_total; auto using chunk_launch_total|].
  split; [apply program_total; auto using chunk_copy_out_total|].
  split.
  { apply program_total; auto. intros i. apply chunk_copy_in_total. discriminate. }
  split.
  { apply program_total; auto. intros i. apply chunk_copy_in_total. discriminate. }
  split; [apply program_clamped; lia|apply program_noop].
Qed.

Lemma sweep_covers_input_witness :
  0 <= 513 <= INT_MAX - 511 /\ (chunks 513 <= 2)%nat /\
  exists tr,
    run_main 2 all_succeed 513 = Returned 0 tr /\
    total launch_len tr = 513 /\
    total copy_out_len tr = 513 /\
    total (copy_in_len hostInput1) tr = 513 /\
    total (copy_in_len hostInput2) tr = 513 /\
    Forall (clamped 513) tr /\
    Forall noop_when_empty tr.
Proof.
  assert (R : 0 <= 513 <= INT_MAX - 511) by (unfold INT_MAX; lia).
  assert (F : (chunks 513 <= 2)%nat) by (vm_compute; lia).
  split; [exact R|]. split; [exact F|].
  exact (sweep_covers_input 513 2 R F).
Defined.

(** C3 as stated fails at [inputLength = INT_MAX = 2147483647]: the
    addition [i += 512] wraps at [i = 2147483136], the loop never ends, and
    no run completes a sweep whose segment lengths add up to the input
    length. *)
Lemma sweep_overflow :
  ~ exists fuel env tr,
      run_main fuel env 2147483647 = Returned 0 tr /\
      total launch_len tr = 2147483647.
Proof.
  intros (fuel & env & tr & H & _).
  apply run_main_returned in H. destruct H as (_ & H & _).
  apply sweep_ends_only_in_range in H. unfold INT_MAX in H. lia.
Qed.

(* ----------------------------------------------------------------- *)
(** *** Failures of device operations *)

(** X1.  Every call of a run that has a [check] and is answered with a failure
    is the last call of the run: the process exits with [EXIT_FAILURE] and
    a diagnostic that carries the error code (whose string is printed),
    the file and the line of that [check]; nothing is retried. *)
Lemma checked_failure_exits fuel env inputLength k c :
  nth_error (trace_of (run_main fuel env inputLength)) k = Some c ->
  check_line c <> None ->
  env k <> cudaSuccess ->
  exists line,
    check_line c = Some line /\
    run_main fuel env inputLength
    = Exited EXIT_FAILURE [Diagnostic (env k) FILE_ line]
             (firstn (S k) (trace_of (run_main fuel env inputLength))) /\
    length (trace_of (run_main fuel env inputLength)) = S k.
Proof.
  rewrite run_main_perform, trace_of_conclude. intros Hn Hc He.
  destruct (perform_failure (attempted fuel inputLength) env [] k c
              ltac:(cbn; lia) Hn Hc He) as (line & Hl & Hp & Hlen).
  exists line. split; [exact Hl|]. split; [|exact Hlen].
  rewrite Hp at 1. reflexivity.
Qed.

(** C4 fails for the kernel launch: the launch (lines 125-128) is the one
    device operation without a [check].  With [inputLength = 1], the 25th
    call of the run is the launch on stream 0; when the runtime answers it
    with [cudaErrorInvalidConfiguration] and every other call succeeds, the
    program makes all its remaining calls and returns 0 from [main], having
    printed nothing. *)
Theorem launch_failure_unnoticed :
  nth_error (program 1 1) 24 = Some (vecAdd_launch 1 128 0 1) /\
  fails_at 24 cudaErrorInvalidConfiguration 24%nat <> cudaSuccess /\
  run_main 1 (fails_at 24 cudaErrorInvalidConfiguration) 1
  = Returned 0 (program 1 1).
Proof.
  split; [reflexivity|]. split; [discriminate|]. vm_compute. reflexivity.
Qed.

(* ----------------------------------------------------------------- *)
(** *** Resources *)

Lemma audit_from_app l1 l2 st :
  fold_left account (l1 ++ l2) st = fold_left account l2 (fold_left account l1 st).
Proof. apply fold_left_app. Qed.

Lemma account_async l : forall st,
  Forall (fun c => is_async c = true) l -> fold_left account l st = st.
Proof.
  induction l as [|c l IH]; intros st H; [reflexivity|].
  inversion H as [|? ? Hc Hl]; subst. cbn [fold_left].
  rewrite <- (IH st Hl) at 2. f_equal.
  destruct c; cbn in Hc; try discriminate; reflexivity.
Qed.

Lemma audit_program fuel inputLength :
  audit (program fuel inputLength)
  = Ledger [3; 2; 1; 0] [] (Z.to_nat (3 * N_STREAMS)) (Z.to_nat (3 * N_STREAMS)) false.
Proof.
  unfold audit, program.
  rewrite app_assoc, !audit_from_app.
  rewrite (account_async (fst (sweep fuel inputLength 0))) by apply sweep_async.
  reflexivity.
Qed.

Lemma async_not_free c : is_async c = true -> is_free c = false.
Proof. destruct c; cbn; congruence. Qed.

(** C5 (as amended).  In every run that returns from [main], whatever the
    input length and the fuel: [3 * N_STREAMS] device buffers were
    allocated and as many released, each exactly once (no buffer is left
    live, and no release hit a buffer that was not live); every release
    comes after the hand-over of the output vector to [wbSolution], which
    comes after every asynchronous call of the pipeline; and the
    [N_STREAMS] streams, created once each, are all still live: the
    program makes no call that releases a stream. *)
Theorem buffers_released_once fuel env inputLength tr :
  run_main fuel env inputLength = Returned 0 tr ->
  allocated (audit tr) = Z.to_nat (3 * N_STREAMS) /\
  released (audit tr) = allocated (audit tr) /\
  live_buffers (audit tr) = [] /\
  misused (audit tr) = false /\
  live_streams (audit tr) = [3; 2; 1; 0] /\
  exists before after,
    tr = before ++ wbSolution inputLength :: after /\
    Forall (fun c => is_free c = false) before /\
    Forall (fun c => is_async c = false) after.
Proof.
  intros H. apply run_main_returned in H. destruct H as (_ & _ & ->).
  rewrite audit_program. cbn [allocated released live_buffers misused live_streams].
  repeat (split; [reflexivity|]).
  exists (create_calls ++ allocate_calls ++ fst (sweep fuel inputLength 0)),
         (free_calls ++ [free hostInput1; free hostInput2; free hostOutput]).
  split; [|split].
  - unfold program, epilogue_calls. rewrite <- !app_assoc. reflexivity.
  - apply Forall_app. split; [repeat constructor|].
    apply Forall_app. split; [repeat constructor|].
    eapply Forall_impl; [|apply sweep_async]. apply async_not_free.
  - repeat constructor.
Qed.

Lemma buffers_released_once_witness :
  run_main 1 all_succeed 1 = Returned 0 (program 1 1) /\
  allocated (audit (program 1 1)) = Z.to_nat (3 * N_STREAMS) /\
  released (audit (program 1 1)) = allocated (audit (program 1 1)) /\
  live_buffers (audit (program 1 1)) = [] /\
  misused (audit (program 1 1)) = false /\
  live_streams (audit (program 1 1)) = [3; 2; 1; 0] /\
  exists before after,
    program 1 1 = before ++ wbSolution 1 :: after /\
    Forall (fun c => is_free c = false) before /\
    Forall (fun c => is_async c = false) after.
Proof.
  assert (H : run_main 1 all_succeed 1 = Returned 0 (program 1 1))
    by (vm_compute; reflexivity).
  split; [exact H|].
  exact (buffers_released_once 1 all_succeed 1 (program 1 1) H).
Defined.

(** C5 as stated fails on the streams: after a complete run on one element
    the four streams created at lines 82-85 are all still live, and none
    of the 48 calls of the run released one. *)
Lemma streams_never_released :
  run_main 1 all_succeed 1 = Returned 0 (program 1 1) /\
  length (program 1 1) = 48%nat /\
  live_streams (audit (program 1 1)) = [3; 2; 1; 0] /\
  live_streams (audit (program 1 1)) <> [].
Proof.
  split; [vm_compute; reflexivity|]. split; [reflexivity|].
  split; [reflexivity|]. discriminate.
Qed.

(* ----------------------------------------------------------------- *)
(** *** The hand-over of the output vector *)


(* ----------------------------------------------------------------- *)
(** *** Edge lengths *)

Lemma sweep_nothing fuel : sweep fuel 0 0 = ([], true).
Proof. destruct fuel; reflexivity. Qed.

Lemma forall_prefix {A} (P : A -> Prop) (l1 l2 : list A) :
  Forall P (l1 ++ l2) -> Forall P l1.
Proof. intros H. apply Forall_app in H. tauto. Qed.

(** C7.  For [inputLength = 0] the scheduler loop runs no iteration: with
    any fuel and whatever the calls return, the run issues no copy and no
    launch; when every call succeeds [main] returns 0 after creating the
    streams, allocating and releasing the buffers and handing over the
    output; and under every interleaving the machine completes without a
    fault, with an empty output vector. *)
Theorem empty_input fuel :
  run_main fuel all_succeed 0
  = Returned 0 (create_calls ++ allocate_calls ++ epilogue_calls 0) /\
  (forall env, Forall (fun c => is_async c = false)
                      (trace_of (run_main fuel env 0))) /\
  forall junk junk_out sched,
    let m := settle [] [] junk
               (run [] [] junk sched
                    (boot junk_out (create_calls ++ allocate_calls ++ epilogue_calls 0) 0)) in
    completed m /\ faulted m = false /\ out_vec m = [].
Proof.
  assert (P : program fuel 0 = create_calls ++ allocate_calls ++ epilogue_calls 0).
  { unfold program. rewrite sweep_nothing. reflexivity. }
  split; [|split].
  - rewrite run_main_all_succeed by (rewrite sweep_nothing; reflexivity).
    now rewrite P.
  - intros env. rewrite run_main_perform, trace_of_conclude.
    unfold attempted. rewrite sweep_nothing. cbn [snd]. rewrite P.
    destruct (perform_trace (create_calls ++ allocate_calls ++ epilogue_calls 0) env [])
      as (l1 & l2 & E & ->).
    cbn [app]. apply (forall_prefix _ l1 l2). rewrite <- E. repeat constructor.
  - intros junk junk_out sched. rewrite <- P.
    destruct (pipeline_output [] [] junk junk_out 0 fuel sched)
      as (Hd & Hf & Hl & _); try reflexivity.
    + unfold INT_MAX. lia.
    + cbn. lia.
    + cbn zeta. split; [exact Hd|]. split; [exact Hf|].
      unfold zlength in Hl.
      destruct (out_vec _); [reflexivity|cbn in Hl; lia].
Qed.




(* ----------------------------------------------------------------- *)
(** *** Determinism and agreement of the three phases *)

(** C9.  Two runs of the pipeline on the same two input vectors yield the
    same output vector: whatever the fuel, whatever the calls returned (as
    long as both runs return from [main]), whatever the device buffers and
    the output block held before ([junk], a fresh pool each time) and
    whatever the interleaving of the host and the streams in either run. *)
Theorem pipeline_deterministic in1 in2 inputLength
    fuel1 env1 tr1 junk1 junk_out1 sched1
    fuel2 env2 tr2 junk2 junk_out2 sched2 :
  zlength in1 = inputLength -> zlength in2 = inputLength ->
  run_main fuel1 env1 inputLength = Returned 0 tr1 ->
  run_main fuel2 env2 inputLength = Returned 0 tr2 ->
  out_vec (settle in1 in2 junk1 (run in1 in2 junk1 sched1 (boot junk_out1 tr1 inputLength)))
  = out_vec (settle in1 in2 junk2 (run in1 in2 junk2 sched2 (boot junk_out2 tr2 inputLength))).
Proof.
  intros H1 H2 R1 R2.
  assert (H0 : 0 <= inputLength) by (rewrite <- H1; apply zlength_nonneg).
  apply run_main_returned in R1. destruct R1 as (_ & S1 & ->).
  apply run_main_returned in R2. destruct R2 as (_ & S2 & ->).
  assert (HL : inputLength <= INT_MAX - 511) by (eapply sweep_ends_only_in_range; eassumption).
  rewrite (program_fuel_irrelevant fuel1) by assumption.
  rewrite (program_fuel_irrelevant fuel2) by assumption.
  destruct (pipeline_output in1 in2 junk1 junk_out1 inputLength (chunks inputLength) sched1)
    as (_ & _ & L1 & G1); auto.
  destruct (pipeline_output in1 in2 junk2 junk_out2 inputLength (chunks inputLength) sched2)
    as (_ & _ & L2 & G2); auto.
  cbn zeta in *.
  apply nth_ext with (d := fzero) (d' := fzero).
  - unfold zlength in *. lia.
  - intros n Hn.
    assert (Hidx : 0 <= Z.of_nat n < inputLength) by (unfold zlength in *; lia).
    specialize (G1 _ Hidx). specialize (G2 _ Hidx).
    unfold summed, get in *. rewrite Nat2Z.id in *. congruence.
Qed.

Lemma pipeline_deterministic_witness :
  zlength [one] = 1 /\ zlength [two] = 1 /\
  run_main 1 all_succeed 1 = Returned 0 (program 1 1) /\
  run_main 7 all_succeed 1 = Returned 0 (program 7 1) /\
  out_vec (settle [one] [two] no_junk
             (run [one] [two] no_junk [Host; Device 0] (boot [] (program 1 1) 1)))
  = out_vec (settle [one] [two] (fun _ _ => [three])
               (run [one] [two] (fun _ _ => [three]) (repeat Host 40)
                    (boot [two] (program 7 1) 1))).
Proof.
  assert (R1 : run_main 1 all_succeed 1 = Returned 0 (program 1 1))
    by (vm_compute; reflexivity).
  assert (R2 : run_main 7 all_succeed 1 = Returned 0 (program 7 1))
    by (vm_compute; reflexivity).
  split; [reflexivity|]. split; [reflexivity|]. split; [exact R1|]. split; [exact R2|].
  exact (pipeline_deterministic [one] [two] 1
           1%nat all_succeed (program 1 1) no_junk [] [Host; Device 0]
           7%nat all_succeed (program 7 1) (fun _ _ => [three]) [two] (repeat Host 40)
           eq_refl eq_refl R1 R2).
Defined.

(** C10.  In the chunk that starts at [i] (any [i], any [inputLength]), the
    calls bound to stream [s] are, in this order, the copy-in of the first
    input, the copy-in of the second input, the launch and the copy-out;
    the two copy-ins and the copy-out move the same number [n] of
    elements, from and to the same offset [i + s*segmentSize], and [n] is
    the [len] argument of the launch, where
    [n = max(min(segmentSize, inputLength - i - s*segmentSize), 0)] in
    [int] arithmetic. *)
Theorem phases_agree inputLength i s :
  0 <= s < N_STREAMS ->
  let n := max (min segmentSize
                    (int_sub (int_sub inputLength i) (int_mul s segmentSize))) 0 in
  exists tr count,
    chunk inputLength i all_succeed [] = Returned tt tr /\
    count / sizeof_float = n /\
    filter (on_stream s) tr
    = [ cudaMemcpyAsync_H2D deviceInput1 s hostInput1 (i + s * segmentSize) count;
        cudaMemcpyAsync_H2D deviceInput2 s hostInput2 (i + s * segmentSize) count;
        vecAdd_launch 1 BLOCK_SIZE s n;
        cudaMemcpyAsync_D2H (i + s * segmentSize) s count ].
Proof.
  intros Hs n.
  exists (chunk_calls inputLength i), (wrap_size (n * sizeof_float)).
  split; [|split].
  - rewrite chunk_perform. apply perform_all_succeed.
  - apply count_of_copySize.
  - rewrite chunk_calls_unfold. unfold n. fold (copySize inputLength i s).
    destruct (stream_cases s Hs) as [-> | [-> | [-> | ->]]]; reflexivity.
Qed.

Lemma phases_agree_witness :
  0 <= 1 < N_STREAMS /\
  let n := max (min segmentSize (int_sub (int_sub 200 0) (int_mul 1 segmentSize))) 0 in
  exists tr count,
    chunk 200 0 all_succeed [] = Returned tt tr /\
    count / sizeof_float = n /\
    filter (on_stream 1) tr
    = [ cudaMemcpyAsync_H2D deviceInput1 1 hostInput1 (0 + 1 * segmentSize) count;
        cudaMemcpyAsync_H2D deviceInput2 1 hostInput2 (0 + 1 * segmentSize) count;
        vecAdd_launch 1 BLOCK_SIZE 1 n;
        cudaMemcpyAsync_D2H (0 + 1 * segmentSize) 1 count ].
Proof.
  assert (R : 0 <= 1 < N_STREAMS) by (unfold N_STREAMS; lia).
  split; [exact R|].
  exact (phases_agree 200 0 1 R).
Defined.

(* ================================================================= *)
(** ** Further properties of the program *)

(** A run in which the second copy-in fails: the witness of
    [checked_failure_exits]. *)
Lemma checked_failure_exits_witness :
  nth_error (trace_of (run_main 1 (fails_at 17 cudaErrorMemoryAllocation) 1)) 17
  = Some (cudaMemcpyAsync_H2D deviceInput2 0 hostInput2 0 4) /\
  check_line (cudaMemcpyAsync_H2D deviceInput2 0 hostInput2 0 4) <> None /\
  fails_at 17 cudaErrorMemoryAllocation 17%nat <> cudaSuccess /\
  exists line,
    check_line (cudaMemcpyAsync_H2D deviceInput2 0 hostInput2 0 4) = Some line /\
    run_main 1 (fails_at 17 cudaErrorMemoryAllocation) 1
    = Exited EXIT_FAILURE
             [Diagnostic (fails_at 17 cudaErrorMemoryAllocation 17%nat) FILE_ line]
             (firstn 18 (trace_of (run_main 1 (fails_at 17 cudaErrorMemoryAllocation) 1))) /\
    length (trace_of (run_main 1 (fails_at 17 cudaErrorMemoryAllocation) 1)) = 18%nat.
Proof.
  assert (N : nth_error (trace_of (run_main 1 (fails_at 17 cudaErrorMemoryAllocation) 1)) 17
              = Some (cudaMemcpyAsync_H2D deviceInput2 0 hostInput2 0 4))
    by (vm_compute; reflexivity).
  assert (C : check_line (cudaMemcpyAsync_H2D deviceInput2 0 hostInput2 0 4) <> None)
    by discriminate.
  assert (E : fails_at 17 cudaErrorMemoryAllocation 17%nat <> cudaSuccess)
    by discriminate.
  split; [exact N|]. split; [exact C|]. split; [exact E|].
  exact (checked_failure_exits 1 (fails_at 17 cudaErrorMemoryAllocation) 1 17
           (cudaMemcpyAsync_H2D deviceInput2 0 hostInput2 0 4) N C E).
Defined.

Lemma perform_exited l : forall env tr st out tr',
  perform l env tr = Exited st out tr' ->
  st = EXIT_FAILURE /\
  exists c line,
    nth_error tr' (last_index tr') = Some c /\
    check_line c = Some line /\
    env (last_index tr') <> cudaSuccess /\
    out = [Diagnostic (env (last_index tr')) FILE_ line] /\
    (length tr < length tr')%nat.
Proof.
  induction l as [|c0 l IH]; intros env tr st out tr' H.
  - discriminate.
  - rewrite perform_cons in H.
    assert (Hlen : length (tr ++ [c0]) = S (length tr))
      by (rewrite length_app; cbn; lia).
    destruct (check_line c0) as [line0|] eqn:Hc.
    + destruct (Z.eqb_spec (env (length tr)) cudaSuccess) as [He|He].
      * destruct (IH _ _ _ _ _ H) as (-> & c & line & H1 & H2 & H3 & H4 & H5).
        split; [reflexivity|]. exists c, line. repeat split; auto; lia.
      * inversion H; subst. split; [reflexivity|].
        unfold last_index. rewrite Hlen. cbn [pred].
        exists c0, line0. rewrite nth_error_app2 by lia.
        rewrite Nat.sub_diag. repeat split; auto; lia.
    + destruct (IH _ _ _ _ _ H) as (-> & c & line & H1 & H2 & H3 & H4 & H5).
      split; [reflexivity|]. exists c, line. repeat split; auto; lia.
Qed.

(** X2.  The only way a run exits is a failed [check]: if the process
    exits, its status is [EXIT_FAILURE], its output is exactly one
    diagnostic, and that diagnostic reports the last call of the run, which
    is a checked call answered with a failure, with the line of its
    [check]. *)
Theorem exit_only_on_failed_check fuel env inputLength st out tr :
  run_main fuel env inputLength = Exited st out tr ->
  st = EXIT_FAILURE /\
  exists c line,
    nth_error tr (last_index tr) = Some c /\
    check_line c = Some line /\
    env (last_index tr) <> cudaSuccess /\
    out = [Diagnostic (env (last_index tr)) FILE_ line].
Proof.
  rewrite run_main_perform. unfold conclude.
  destruct (perform (attempted fuel inputLength) env []) as [u tr0|st0 out0 tr0|tr0] eqn:Hp.
  - destruct (snd (sweep fuel inputLength 0)); discriminate.
  - intros H. inversion H; subst.
    destruct (perform_exited _ _ _ _ _ _ Hp) as (-> & c & line & H1 & H2 & H3 & H4 & _).
    split; [reflexivity|]. exists c, line. auto.
  - discriminate.
Qed.

Lemma exit_only_on_failed_check_witness :
  run_main 1 (fails_at 5 cudaErrorMemoryAllocation) 1
  = Exited EXIT_FAILURE [Diagnostic cudaErrorMemoryAllocation FILE_ 94]
           (firstn 6 (program 1 1)) /\
  EXIT_FAILURE = EXIT_FAILURE /\
  exists c line,
    nth_error (firstn 6 (program 1 1)) (last_index (firstn 6 (program 1 1))) = Some c /\
    check_line c = Some line /\
    fails_at 5 cudaErrorMemoryAllocation (last_index (firstn 6 (program 1 1)))
    <> cudaSuccess /\
    [Diagnostic cudaErrorMemoryAllocation FILE_ 94]
    = [Diagnostic (fails_at 5 cudaErrorMemoryAllocation
                     (last_index (firstn 6 (program 1 1)))) FILE_ line].
Proof.
  assert (H : run_main 1 (fails_at 5 cudaErrorMemoryAllocation) 1
              = Exited EXIT_FAILURE [Diagnostic cudaErrorMemoryAllocation FILE_ 94]
                       (firstn 6 (program 1 1)))
    by (vm_compute; reflexivity).
  split; [exact H|].
  exact (exit_only_on_failed_check 1 (fails_at 5 cudaErrorMemoryAllocation) 1
           EXIT_FAILURE [Diagnostic cudaErrorMemoryAllocation FILE_ 94]
           (firstn 6 (program 1 1)) H).
Defined.

(** X3.  [main] can return exactly for the lengths up to [INT_MAX - 511]:
    for those, and only for those, some amount of fuel lets the run with
    every call succeeding return 0 (for a larger length the loop counter
    wraps and the loop never ends). *)
Theorem returns_iff_no_wrap inputLength :
  (exists fuel tr, run_main fuel all_succeed inputLength = Returned 0 tr)
  <-> inputLength <= INT_MAX - 511.
Proof.
  split.
  - intros (fuel & tr & H). apply run_main_returned in H.
    destruct H as (_ & H & _). eapply sweep_ends_only_in_range; eassumption.
  - intros HL. exists (chunks inputLength), (program (chunks inputLength) inputLength).
    apply run_main_all_succeed. apply sweep_ends; try lia.
    rewrite Z.sub_0_r. lia.
Qed.

(* ----------------------------------------------------------------- *)
(** *** Properties of every run, however it ends *)

(** The calls of a run are an initial part of the calls [main] sets out to
    make. *)
Lemma trace_prefix fuel env inputLength :
  exists rest,
    attempted fuel inputLength = trace_of (run_main fuel env inputLength) ++ rest.
Proof.
  rewrite run_main_perform, trace_of_conclude.
  destruct (perform_trace (attempted fuel inputLength) env []) as (l1 & l2 & E & ->).
  exists l2. exact E.
Qed.

Lemma attempted_forall (P : call -> Prop) fuel inputLength :
  Forall P (create_calls ++ allocate_calls) ->
  Forall P (fst (sweep fuel inputLength 0)) ->
  Forall P (epilogue_calls inputLength) ->
  Forall P (attempted fuel inputLength).
Proof.
  intros H1 H2 H3. apply Forall_app in H1. destruct H1 as [H1 H1'].
  unfold attempted, program. destruct (snd (sweep fuel inputLength 0)).
  - apply Forall_app; split; [exact H1|]. apply Forall_app; split; [exact H1'|].
    apply Forall_app; split; assumption.
  - apply Forall_app; split; [exact H1|]. apply Forall_app; split; assumption.
Qed.

Lemma run_forall (P : call -> Prop) fuel env inputLength :
  Forall P (attempted fuel inputLength) ->
  Forall P (trace_of (run_main fuel env inputLength)).
Proof.
  intros H. destruct (trace_prefix fuel env inputLength) as (rest & E).
  rewrite E in H. apply Forall_app in H. tauto.
Qed.

Lemma chunk_calls_within_buffers inputLength i :
  Forall within_buffers (chunk_calls inputLength i).
Proof.
  rewrite chunk_calls_unfold.
  pose proof (copySize_bounds inputLength i 0).
  pose proof (copySize_bounds inputLength i 1).
  pose proof (copySize_bounds inputLength i 2).
  pose proof (copySize_bounds inputLength i 3).
  unfold segmentSize in *.
  repeat constructor; cbn [within_buffers]; unfold buffer_bytes, wrap_size, segmentSize, sizeof_float;
    try rewrite Z.mod_small by lia; try (change (128 * 4 mod 2 ^ 64) with 512); lia.
Qed.

Lemma sweep_forall (P : call -> Prop) inputLength :
  (forall i, Forall P (chunk_calls inputLength i)) ->
  forall fuel i, Forall P (fst (sweep fuel inputLength i)).
Proof.
  intros H. induction fuel as [|fuel IH]; intros i; cbn [sweep].
  - destruct (i <? inputLength); constructor.
  - destruct (i <? inputLength); [|constructor]. cbn [fst].
    apply Forall_app. split; [apply H|apply IH].
Qed.

(** X4.  In every run, whatever the input length (even one for which the
    loop counter wraps), the fuel and the answers of the runtime, no call
    exceeds a device buffer: every copy moves between 0 and the
    [segmentSize*sizeof(float)] bytes that were allocated, and every launch
    has a grid of exactly [segmentSize] threads and a length between 0 and
    [segmentSize]. *)
Theorem calls_within_buffers fuel env inputLength :
  Forall within_buffers (trace_of (run_main fuel env inputLength)).
Proof.
  apply run_forall. apply attempted_forall.
  - repeat constructor.
  - apply sweep_forall. apply chunk_calls_within_buffers.
  - repeat constructor.
Qed.

Lemma audit_filter l : forall st,
  fold_left account l st = fold_left account (filter is_resource l) st.
Proof.
  induction l as [|c l IH]; intros st; [reflexivity|].
  cbn [filter fold_left]. destruct (is_resource c) eqn:E.
  - cbn [fold_left]. apply IH.
  - rewrite IH. f_equal. destruct c; cbn in E; try discriminate; reflexivity.
Qed.

Lemma filter_async_resource l :
  Forall (fun c => is_async c = true) l -> filter is_resource l = [].
Proof.
  induction l as [|c l IH]; intros H; [reflexivity|].
  inversion H as [|? ? Hc Hl]; subst. cbn [filter].
  destruct c; cbn in Hc; try discriminate; cbn [is_resource]; auto.
Qed.

Lemma attempted_resources fuel inputLength :
  exists rest, resource_calls = filter is_resource (attempted fuel inputLength) ++ rest.
Proof.
  unfold attempted, program.
  destruct (snd (sweep fuel inputLength 0)).
  - exists []. rewrite app_nil_r, !filter_app.
    rewrite (filter_async_resource (fst (sweep fuel inputLength 0))) by apply sweep_async.
    reflexivity.
  - exists free_calls. rewrite !filter_app.
    rewrite (filter_async_resource (fst (sweep fuel inputLength 0))) by apply sweep_async.
    reflexivity.
Qed.

Lemma prefix_firstn {A} (l p rest : list A) : l = p ++ rest -> p = firstn (length p) l.
Proof.
  intros ->. rewrite firstn_app, Nat.sub_diag, firstn_all. cbn.
  now rewrite app_nil_r.
Qed.

Lemma sound_resource_prefix k : sound_ledger (audit (firstn k resource_calls)).
Proof.
  unfold sound_ledger.
  do 29 (destruct k as [|k];
         [vm_compute; repeat split; try lia; try discriminate;
          repeat constructor; cbn; intuition discriminate|]).
  vm_compute; repeat split; try lia; try discriminate; repeat constructor.
Qed.

(** X5.  In every run, however it ends (return, exit on a failed call, or
    fuel spent), the record of allocations and releases is sound: no
    buffer is released while it is not live (no double release, no release
    of a buffer that was never allocated), there are never more releases
    than allocations nor more than [3*N_STREAMS] allocations, the live
    buffers are pairwise distinct, and no buffer is released before all
    [3*N_STREAMS] have been allocated. *)
Theorem ledger_always_sound fuel env inputLength :
  sound_ledger (audit (trace_of (run_main fuel env inputLength))).
Proof.
  destruct (trace_prefix fuel env inputLength) as (rest & E).
  destruct (attempted_resources fuel inputLength) as (rest' & E').
  rewrite E, filter_app, <- app_assoc in E'.
  unfold audit. rewrite audit_filter.
  rewrite (prefix_firstn _ _ _ E').
  apply sound_resource_prefix.
Qed.

(* ----------------------------------------------------------------- *)
(** *** The shape of the sweep *)

Lemma sweep_forall_range (P : call -> Prop) inputLength :
  (forall i, 0 <= i < inputLength -> i mod 512 = 0 ->
             Forall P (chunk_calls inputLength i)) ->
  inputLength <= INT_MAX - 511 ->
  forall fuel i, 0 <= i -> i mod 512 = 0 ->
    Forall P (fst (sweep fuel inputLength i)).
Proof.
  intros H HL. induction fuel as [|fuel IH]; intros i Hi Ha; cbn [sweep].
  - destruct (i <? inputLength); constructor.
  - destruct (Z.ltb_spec i inputLength); [|constructor]. cbn [fst].
    apply Forall_app. split; [apply H; lia || assumption|].
    apply IH.
    + rewrite (next_chunk_exact inputLength) by lia. lia.
    + now apply next_chunk_aligned.
Qed.

Lemma program_forall (P : call -> Prop) fuel inputLength :
  Forall P (create_calls ++ allocate_calls) ->
  Forall P (fst (sweep fuel inputLength 0)) ->
  Forall P (epilogue_calls inputLength) ->
  Forall P (program fuel inputLength).
Proof.
  intros H1 H2 H3. apply Forall_app in H1. destruct H1 as [H1 H1'].
  unfold program.
  apply Forall_app; split; [exact H1|]. apply Forall_app; split; [exact H1'|].
  apply Forall_app; split; assumption.
Qed.


Lemma chunks_zero x : x <= 0 -> chunks x = 0%nat.
Proof.
  intros H. unfold chunks.
  assert (Q : (x + 511) / 512 < 1) by (apply Z.div_lt_upper_bound; lia).
  lia.
Qed.


(** A run that returns made the calls of the program with exactly the fuel
    it needs. *)
Lemma returned_program fuel env inputLength tr :
  run_main fuel env inputLength = Returned 0 tr ->
  inputLength <= INT_MAX - 511 /\
  tr = program (chunks inputLength) inputLength.
Proof.
  intros H. apply run_main_returned in H. destruct H as (_ & Hs & ->).
  assert (HL : inputLength <= INT_MAX - 511)
    by (eapply sweep_ends_only_in_range; eassumption).
  split; [exact HL|]. unfold program.
  rewrite (sweep_fuel_irrelevant inputLength fuel (chunks inputLength) 0); auto.
  apply sweep_ends; try lia. rewrite Z.sub_0_r. lia.
Qed.




Lemma chunk_calls_full inputLength i :
  0 <= i < inputLength -> inputLength <= INT_MAX ->
  i mod 512 = 0 -> inputLength mod 512 = 0 ->
  Forall full_segment (chunk_calls inputLength i).
Proof.
  intros Hi HL Ha Hb.
  assert (Hd : 512 <= inputLength - i).
  { apply Z.mod_divide in Ha; [|lia]. apply Z.mod_divide in Hb; [|lia].
    destruct Ha as [a ->], Hb as [b ->]. lia. }
  assert (E : forall s, 0 <= s < N_STREAMS -> copySize inputLength i s = segmentSize).
  { intros s Hs. rewrite copySize_clamp by lia.
    unfold segmentSize, N_STREAMS in *. lia. }
  rewrite chunk_calls_unfold.
  rewrite !E by (unfold N_STREAMS; lia).
  repeat constructor.
Qed.

(** X7.  When [inputLength] is a multiple of [segmentSize * N_STREAMS]
    (512), a run that returns has only full segments: every copy moves
    [segmentSize * sizeof(float)] bytes and every launch has length
    [segmentSize]; no stream ever gets a partial or empty segment. *)
Theorem multiple_gives_full_segments fuel env inputLength tr :
  inputLength mod (segmentSize * N_STREAMS) = 0 ->
  run_main fuel env inputLength = Returned 0 tr ->
  Forall full_segment tr.
Proof.
  intros Hm H. apply returned_program in H. destruct H as (HL & ->).
  change (segmentSize * N_STREAMS) with 512 in Hm.
  apply program_forall; try (repeat constructor).
  apply sweep_forall_range; try lia; try reflexivity.
  intros i Hi Ha. apply chunk_calls_full; unfold INT_MAX in *; lia || assumption.
Qed.

Lemma multiple_gives_full_segments_witness :
  1024 mod (segmentSize * N_STREAMS) = 0 /\
  run_main 2 all_succeed 1024 = Returned 0 (program 2 1024) /\
  Forall full_segment (program 2 1024).
Proof.
  assert (M : 1024 mod (segmentSize * N_STREAMS) = 0) by reflexivity.
  assert (H : run_main 2 all_succeed 1024 = Returned 0 (program 2 1024))
    by (vm_compute; reflexivity).
  split; [exact M|]. split; [exact H|].
  exact (multiple_gives_full_segments 2 all_succeed 1024 (program 2 1024) M H).
Defined.

Lemma chunk_calls_within_host inputLength i :
  0 <= i < inputLength -> inputLength <= INT_MAX ->
  Forall (within_host inputLength) (chunk_calls inputLength i).
Proof.
  intros Hi HL.
  assert (E : forall s, 0 <= s < N_STREAMS ->
     wrap_size (copySize inputLength i s * sizeof_float) = 0 \/
     (0 <= i + s * 128 /\
      i + s * 128 + wrap_size (copySize inputLength i s * sizeof_float) / sizeof_float
      <= inputLength)).
  { intros s Hs. rewrite count_of_copySize.
    pose proof (copySize_clamp inputLength i s ltac:(lia) HL Hs) as Hn.
    unfold segmentSize, N_STREAMS in *.
    destruct (Z.eq_dec (copySize inputLength i s) 0) as [Hz|Hnz].
    - left. rewrite Hz. reflexivity.
    - right. lia. }
  rewrite chunk_calls_unfold.
  repeat apply Forall_cons; try apply Forall_nil; cbn [within_host];
    try exact I;
    first [ apply (E 0) | apply (E 1) | apply (E 2) | apply (E 3) ];
    unfold N_STREAMS; lia.
Qed.

(** X8.  In a run that returns, no copy addresses host memory outside the
    vectors: every copy in and every copy out either moves nothing or has
    its whole range inside [0, inputLength). *)
Theorem copies_within_host fuel env inputLength tr :
  run_main fuel env inputLength = Returned 0 tr ->
  Forall (within_host inputLength) tr.
Proof.
  intros H. apply returned_program in H. destruct H as (HL & ->).
  apply program_forall; try (repeat constructor).
  apply sweep_forall_range; try lia; try reflexivity.
  intros i Hi Ha. apply chunk_calls_within_host; unfold INT_MAX in *; lia.
Qed.

Lemma copies_within_host_witness :
  run_main 2 all_succeed 513 = Returned 0 (program 2 513) /\
  Forall (within_host 513) (program 2 513).
Proof.
  assert (H : run_main 2 all_succeed 513 = Returned 0 (program 2 513))
    by (vm_compute; reflexivity).
  split; [exact H|].
  exact (copies_within_host 2 all_succeed 513 (program 2 513) H).
Defined.

(* ----------------------------------------------------------------- *)
(** *** Streams do not interfere *)

Lemma attempted_placed fuel inputLength : Forall placed (attempted fuel inputLength).
Proof.
  apply attempted_forall.
  - repeat constructor.
  - now apply sweep_placed.
  - repeat constructor.
Qed.

(** X9.  An operation that any run binds to stream [s] leaves the length of
    the output vector unchanged and writes only at output indices of the
    segments of [s] (indices [idx] with [(idx / segmentSize) mod N_STREAMS
    = s]): the streams never write the same element, whatever the input
    length, the state it executes on and the moment it executes. *)
Theorem stream_writes_own_segments fuel env inputLength c s in1 in2 t out t' out' :
  In c (trace_of (run_main fuel env inputLength)) ->
  stream_of c = Some s ->
  execute in1 in2 c t out = Some (t', out') ->
  length out' = length out /\
  forall idx, 0 <= idx -> owner idx <> s -> get out' idx = get out idx.
Proof.
  intros Hin Hs He.
  assert (Hp : placed c).
  { pose proof (run_forall placed fuel env inputLength (attempted_placed fuel inputLength)) as F.
    rewrite Forall_forall in F. now apply F. }
  destruct c; cbn in Hs; try discriminate; inversion Hs; subst; cbn in He, Hp.
  - destruct (copy_floats _ _ _ _ _); [|discriminate]. inversion He; subst. auto.
  - destruct (launch _ _ _ _ _ _); [|discriminate]. inversion He; subst. auto.
  - destruct Hp as [_ Hown].
    destruct (copy_floats (dOut t) 0 out off (count / sizeof_float)) as [r|] eqn:E;
      [|discriminate].
    inversion He; subst.
    destruct (copy_floats_result _ _ _ _ _ _ E) as [Hl Hg].
    split; [exact Hl|]. intros idx Hidx Ho. rewrite Hg by assumption.
    destruct (Z.leb_spec off idx), (Z.ltb_spec idx (off + count / sizeof_float));
      cbn [andb]; auto.
    exfalso. apply Ho. apply Hown. lia.
Qed.

Lemma stream_writes_own_segments_witness :
  In (cudaMemcpyAsync_D2H 0 0 4) (trace_of (run_main 1 all_succeed 1)) /\
  stream_of (cudaMemcpyAsync_D2H 0 0 4) = Some 0 /\
  execute [one] [two] (cudaMemcpyAsync_D2H 0 0 4) (Triple [one] [two] [three]) [fzero; one]
  = Some (Triple [one] [two] [three], [three; one]) /\
  length [three; one] = length [fzero; one] /\
  forall idx, 0 <= idx -> owner idx <> 0 -> get [three; one] idx = get [fzero; one] idx.
Proof.
  assert (I : In (cudaMemcpyAsync_D2H 0 0 4) (trace_of (run_main 1 all_succeed 1))).
  { vm_compute. do 28 right. left. reflexivity. }
  assert (E : execute [one] [two] (cudaMemcpyAsync_D2H 0 0 4)
                      (Triple [one] [two] [three]) [fzero; one]
              = Some (Triple [one] [two] [three], [three; one]))
    by (vm_compute; reflexivity).
  split; [exact I|]. split; [reflexivity|]. split; [exact E|].
  exact (stream_writes_own_segments 1 all_succeed 1 (cudaMemcpyAsync_D2H 0 0 4) 0
           [one] [two] (Triple [one] [two] [three]) [fzero; one]
           (Triple [one] [two] [three]) [three; one] I eq_refl E).
Defined.

(* ----------------------------------------------------------------- *)
(** *** The hand-over when the streams are idle *)

Lemma firstn_whole (l : list float) n : zlength l = n -> firstn (Z.to_nat n) l = l.
Proof. unfold zlength. intros <-. rewrite Nat2Z.id. apply firstn_all. Qed.

(** X10.  If, at the moment the host is about to call [wbSolution] (its
    pending calls are those from line 145 on), no stream of the pool has
    anything queued, then the output vector is already complete: it has
    [inputLength] elements, each the sum of the two inputs, and [wbSolution]
    is handed exactly that vector.  (The program itself does nothing to
    bring this situation about.) *)
Theorem idle_handover_is_complete in1 in2 junk junk_out inputLength fuel sched :
  0 <= inputLength <= INT_MAX - 511 ->
  zlength in1 = inputLength -> zlength in2 = inputLength ->
  (chunks inputLength <= fuel)%nat ->
  let m := run in1 in2 junk sched (boot junk_out (program fuel inputLength) inputLength) in
  pending m = epilogue_calls inputLength ->
  (forall s, 0 <= s < N_STREAMS -> queue m s = []) ->
  zlength (out_vec m) = inputLength /\
  (forall idx, 0 <= idx < inputLength ->
     get (out_vec m) idx = fadd (get in1 idx) (get in2 idx)) /\
  handed (step in1 in2 junk Host m) = Some (out_vec m).
Proof.
  intros HL H1 H2 Hf m Hp Hq.
  set (final := fun s => lrun in1 in2 junk s (program fuel inputLength)
                           (Some (Triple [] [] [], fresh_block inputLength junk_out))).
  assert (Hlocal : forall s, 0 <= s < N_STREAMS ->
                     stream_ok in1 in2 inputLength s inputLength (final s)).
  { intros s Hs. apply program_local; assumption. }
  assert (Hdef : forall s, 0 <= s < N_STREAMS -> final s <> None).
  { intros s Hs. destruct (Hlocal s Hs) as (t & out & E & _). congruence. }
  assert (Hsim : sim in1 in2 junk final m).
  { apply (run_preserves _ _ _ _ Hdef).
    constructor; cbn [boot faulted pending queue dmem out_vec]; auto.
    - apply program_placed.
    - apply program_allocs_first.
    - intros s Hs. exists (fresh_block inputLength junk_out).
      split; [apply agree_refl|reflexivity]. }
  assert (Hstream : forall s, 0 <= s < N_STREAMS ->
            exists t lout, final s = Some (t, lout) /\ agree s lout (out_vec m)).
  { intros s Hs. destruct (sim_local _ _ _ _ _ Hsim s Hs) as (lout & Hag & Hrun).
    rewrite Hq, Hp in Hrun by assumption. cbn [app] in Hrun.
    rewrite epilogue_local in Hrun. eauto. }
  assert (Hstep : handed (step in1 in2 junk Host m)
                  = Some (firstn (Z.to_nat inputLength) (out_vec m))).
  { cbn [step]. rewrite Hp. reflexivity. }
  clearbody m final.
  assert (Hlen : zlength (out_vec m) = inputLength).
  { destruct (Hstream 0 ltac:(unfold N_STREAMS; lia)) as (t & lout & E & [Hl _]).
    destruct (Hlocal 0 ltac:(unfold N_STREAMS; lia)) as (t' & out & E' & _ & _ & _ & Ho & _).
    rewrite E in E'. injection E' as _ Eo. subst out. unfold zlength in *. lia. }
  split; [exact Hlen|]. split.
  - intros idx Hidx.
    destruct (Hstream (owner idx) (owner_range idx)) as (t & lout & E & [Hl Hag]).
    destruct (Hlocal (owner idx) (owner_range idx))
      as (t' & out & E' & _ & _ & _ & Ho & Hsum).
    rewrite E in E'. injection E' as _ Eo. subst out.
    rewrite <- Hag by (lia || reflexivity).
    apply Hsum; lia || reflexivity.
  - rewrite Hstep, firstn_whole by assumption. reflexivity.
Qed.

Lemma idle_handover_is_complete_witness :
  let sched := repeat Host 32 ++ repeat (Device 0) 4 ++ repeat (Device 1) 4
               ++ repeat (Device 2) 4 ++ repeat (Device 3) 4 in
  let m := run [one] [two] no_junk sched (boot [fzero] (program 1 1) 1) in
  0 <= 1 <= INT_MAX - 511 /\
  zlength [one] = 1 /\ zlength [two] = 1 /\ (chunks 1 <= 1)%nat /\
  pending m = epilogue_calls 1 /\
  (forall s, 0 <= s < N_STREAMS -> queue m s = []) /\
  zlength (out_vec m) = 1 /\
  (forall idx, 0 <= idx < 1 ->
     get (out_vec m) idx = fadd (get [one] idx) (get [two] idx)) /\
  handed (step [one] [two] no_junk Host m) = Some (out_vec m).
Proof.
  intros sched m.
  assert (R : 0 <= 1 <= INT_MAX - 511) by (unfold INT_MAX; lia).
  assert (F : (chunks 1 <= 1)%nat) by (vm_compute; lia).
  assert (P : pending m = epilogue_calls 1) by (vm_compute; reflexivity).
  assert (Q : forall s, 0 <= s < N_STREAMS -> queue m s = []).
  { intros s Hs. destruct (stream_cases s Hs) as [-> | [-> | [-> | ->]]];
      vm_compute; reflexivity. }
  split; [exact R|]. split; [reflexivity|]. split; [reflexivity|].
  split; [exact F|]. split; [exact P|]. split; [exact Q|].
  exact (idle_handover_is_complete [one] [two] no_junk [fzero] 1 1 sched
           R eq_refl eq_refl F P Q).
Defined.

(* ----------------------------------------------------------------- *)
(** *** When a worker faults *)

Lemma load_none l i : 0 <= i -> (load l i = None <-> zlength l <= i).
Proof.
  intros Hi. unfold load, zlength. destruct (Z.leb_spec 0 i); [|lia].
  rewrite nth_error_None. lia.
Qed.

(** X11.  A worker of [vecAdd] accesses memory out of bounds exactly when
    its global index is below [len] and beyond the end of one of the three
    buffers: the test [i < len] protects a launch as long as [len] does not
    exceed the buffers, and only then. *)
Theorem vecAdd_faults_iff in1 in2 out len b bd t :
  0 <= b * bd -> 0 <= t -> b * bd + t <= INT_MAX ->
  (vecAdd in1 in2 out len b bd t = None
   <-> b * bd + t < len /\
       (zlength in1 <= b * bd + t \/ zlength in2 <= b * bd + t
        \/ zlength out <= b * bd + t)).
Proof.
  intros Hb Ht Hmax. unfold vecAdd. rewrite global_index_exact by assumption.
  set (idx := b * bd + t) in *. assert (Hidx : 0 <= idx) by (unfold idx; lia).
  destruct (Z.ltb_spec idx len) as [Hl|Hl].
  - pose proof (load_none in1 idx Hidx) as L1.
    pose proof (load_none in2 idx Hidx) as L2.
    destruct (load in1 idx) as [a|].
    + destruct (load in2 idx) as [c|].
      * unfold store. destruct (Z.leb_spec 0 idx) as [_|Hneg]; [|lia].
        destruct (Z.ltb_spec idx (zlength out)) as [Hin|Hout]; cbn [andb].
        -- split; [discriminate|]. intros [_ [Hx|[Hx|Hx]]]; try lia.
           ++ apply L1 in Hx. discriminate.
           ++ apply L2 in Hx. discriminate.
        -- split; [intros _; split; [assumption|]; right; right; assumption|reflexivity].
      * split; [intros _|reflexivity]. split; [assumption|].
        right; left. now apply L2.
    + split; [intros _|reflexivity]. split; [assumption|]. left. now apply L1.
  - split; [discriminate|]. intros [Hx _]. lia.
Qed.

Lemma vecAdd_faults_iff_witness :
  0 <= 0 * 128 /\ 0 <= 5 /\ 0 * 128 + 5 <= INT_MAX /\
  (vecAdd [one; one] [two; two] [fzero; fzero] 8 0 128 5 = None
   <-> 0 * 128 + 5 < 8 /\
       (zlength [one; one] <= 0 * 128 + 5 \/ zlength [two; two] <= 0 * 128 + 5
        \/ zlength [fzero; fzero] <= 0 * 128 + 5)).
Proof.
  assert (A : 0 <= 0 * 128) by lia.
  assert (B : 0 <= 5) by lia.
  assert (C : 0 * 128 + 5 <= INT_MAX) by (unfold INT_MAX; lia).
  split; [exact A|]. split; [exact B|]. split; [exact C|].
  exact (vecAdd_faults_iff [one; one] [two; two] [fzero; fzero] 8 0 128 5 A B C).
Defined.

(* ----------------------------------------------------------------- *)
(** *** Order of the calls *)

(** X12.  In every run, however it ends, an asynchronous call (copy or
    launch) is made only after all [N_STREAMS] streams have been created
    and all [3 * N_STREAMS] buffers allocated: the first 16 calls of a run
    that contains an asynchronous call are exactly the creations and the
    allocations. *)
Theorem setup_precedes_pipeline fuel env inputLength k c :
  nth_error (trace_of (run_main fuel env inputLength)) k = Some c ->
  is_async c = true ->
  (16 <= k)%nat /\
  firstn 16 (trace_of (run_main fuel env inputLength))
  = create_calls ++ allocate_calls.
Proof.
  intros Hn Ha.
  destruct (trace_prefix fuel env inputLength) as (rest & E).
  set (tr := trace_of (run_main fuel env inputLength)) in *.
  assert (Hatt : exists tail, attempted fuel inputLength
                              = (create_calls ++ allocate_calls) ++ tail).
  { unfold attempted, program. destruct (snd (sweep fuel inputLength 0));
      rewrite app_assoc; eauto. }
  destruct Hatt as (tail & Hatt). rewrite Hatt in E.
  assert (Hk : (k < length tr)%nat).
  { apply nth_error_Some. congruence. }
  assert (Hsetup : forall j c', (j < 16)%nat -> nth_error tr j = Some c' ->
                                is_async c' = false).
  { intros j c' Hj Hc'.
    assert (Hj' : nth_error ((create_calls ++ allocate_calls) ++ tail) j = Some c').
    { rewrite E. rewrite nth_error_app1; [assumption|].
      apply nth_error_Some. congruence. }
    rewrite nth_error_app1 in Hj'
      by (change (length (create_calls ++ allocate_calls)) with 16%nat; lia).
    assert (F : Forall (fun c => is_async c = false) (create_calls ++ allocate_calls))
      by repeat constructor.
    rewrite Forall_forall in F. apply F. eapply nth_error_In. eassumption. }
  assert (H16 : (16 <= k)%nat).
  { destruct (Nat.lt_ge_cases k 16) as [Hlt|]; [|assumption].
    rewrite (Hsetup k c Hlt Hn) in Ha. discriminate. }
  split; [exact H16|].
  assert (F1 : firstn 16 (tr ++ rest) = firstn 16 tr).
  { rewrite firstn_app. replace (16 - length tr)%nat with 0%nat by lia.
    cbn. apply app_nil_r. }
  rewrite <- F1, <- E. rewrite firstn_app.
  change (length (create_calls ++ allocate_calls)) with 16%nat.
  rewrite Nat.sub_diag, firstn_O, app_nil_r.
  reflexivity.
Qed.

Lemma setup_precedes_pipeline_witness :
  nth_error (trace_of (run_main 1 (fails_at 17 cudaErrorMemoryAllocation) 1)) 16
  = Some (cudaMemcpyAsync_H2D deviceInput1 0 hostInput1 0 4) /\
  is_async (cudaMemcpyAsync_H2D deviceInput1 0 hostInput1 0 4) = true /\
  (16 <= 16)%nat /\
  firstn 16 (trace_of (run_main 1 (fails_at 17 cudaErrorMemoryAllocation) 1))
  = create_calls ++ allocate_calls.
Proof.
  assert (N : nth_error (trace_of (run_main 1 (fails_at 17 cudaErrorMemoryAllocation) 1)) 16
              = Some (cudaMemcpyAsync_H2D deviceInput1 0 hostInput1 0 4))
    by (vm_compute; reflexivity).
  split; [exact N|]. split; [reflexivity|].
  exact (setup_precedes_pipeline 1 (fails_at 17 cudaErrorMemoryAllocation) 1 16
           (cudaMemcpyAsync_H2D deviceInput1 0 hostInput1 0 4) N eq_refl).
Defined.

Lemma copy_out_offsets_app l1 l2 :
  copy_out_offsets (l1 ++ l2) = copy_out_offsets l1 ++ copy_out_offsets l2.
Proof. unfold copy_out_offsets. now rewrite filter_app, map_app. Qed.

Lemma tiles_step i n :
  map (fun j => i + Z.of_nat j * segmentSize) (seq 0 (4 + n))
  = [i; i + 128; i + 256; i + 384]
    ++ map (fun j => (i + 512) + Z.of_nat j * segmentSize) (seq 0 n).
Proof.
  rewrite seq_app, map_app. cbn [seq map Nat.add].
  f_equal.
  - unfold segmentSize. repeat f_equal; lia.
  - rewrite <- (seq_shift n 3), <- (seq_shift n 2), <- (seq_shift n 1), <- (seq_shift n 0).
    rewrite !map_map. apply map_ext. intros j. unfold segmentSize. lia.
Qed.

Lemma sweep_offsets inputLength :
  inputLength <= INT_MAX - 511 ->
  forall fuel i, 0 <= i ->
    (chunks (inputLength - i) <= fuel)%nat ->
    copy_out_offsets (fst (sweep fuel inputLength i))
    = map (fun j => i + Z.of_nat j * segmentSize)
          (seq 0 (4 * chunks (inputLength - i))).
Proof.
  intros HL. induction fuel as [|fuel IH]; intros i Hi Hf; cbn [sweep].
  - destruct (Z.ltb_spec i inputLength).
    + rewrite (chunks_step inputLength i) in Hf by lia. lia.
    + rewrite chunks_zero by lia. reflexivity.
  - destruct (Z.ltb_spec i inputLength).
    + cbn [fst]. rewrite copy_out_offsets_app.
      rewrite (next_chunk_exact inputLength) by lia.
      rewrite IH by (try lia; rewrite (chunks_step inputLength i) in Hf by lia; lia).
      rewrite (chunks_step inputLength i) by lia.
      replace (4 * S (chunks (inputLength - (i + 512))))%nat
        with (4 + 4 * chunks (inputLength - (i + 512)))%nat by lia.
      rewrite tiles_step. f_equal.
      rewrite chunk_calls_unfold. cbn. repeat f_equal; lia.
    + rewrite chunks_zero by lia. reflexivity.
Qed.

(** X13.  In a run that returns, the copies out are issued in increasing
    order of offset and their offsets tile the output vector by segments:
    the [j]-th copy-out of the run (from 0) writes at offset
    [j * segmentSize], for [j] below [N_STREAMS * chunks]. *)
Theorem copy_outs_tile_the_output fuel env inputLength tr :
  run_main fuel env inputLength = Returned 0 tr ->
  copy_out_offsets tr
  = map (fun j => Z.of_nat j * segmentSize)
        (seq 0 (Z.to_nat N_STREAMS * chunks inputLength)).
Proof.
  intros H. apply returned_program in H. destruct H as (HL & ->).
  unfold program. rewrite !copy_out_offsets_app.
  change (copy_out_offsets create_calls) with (@nil Z).
  change (copy_out_offsets allocate_calls) with (@nil Z).
  change (copy_out_offsets (epilogue_calls inputLength)) with (@nil Z).
  rewrite app_nil_r. cbn [app].
  rewrite (sweep_offsets inputLength HL) by (try lia; rewrite Z.sub_0_r; lia).
  rewrite Z.sub_0_r. apply map_ext. intros j. lia.
Qed.

Lemma copy_outs_tile_the_output_witness :
  run_main 2 all_succeed 513 = Returned 0 (program 2 513) /\
  copy_out_offsets (program 2 513)
  = map (fun j => Z.of_nat j * segmentSize) (seq 0 (Z.to_nat N_STREAMS * chunks 513)).
Proof.
  assert (H : run_main 2 all_succeed 513 = Returned 0 (program 2 513))
    by (vm_compute; reflexivity).
  split; [exact H|].
  exact (copy_outs_tile_the_output 2 all_succeed 513 (program 2 513) H).
Defined.
